(** * Ranking metrics of cornac ([cornac/metrics/ranking.py])

    A shallow embedding of the ranking metrics NDCG, NCRR, MRR,
    Precision@K, Recall@K, F-measure@K and AUC, together with the
    properties their specification states.

    Modelling conventions.
    - A numpy integer array is a [list nat]: the relevance vector [gt_pos]
      (documented as a binary vector; non-negative graded relevance is
      admitted by the model and singled out by [binary] where a result
      needs it), the negative mask [gt_neg] and the prediction rank
      [pd_rank], whose entries are item identifiers, that is indices into
      the relevance vector.
    - A numpy float is an exact real number extended with the three
      special values of IEEE arithmetic ([npfloat]); rounding and the sign
      of zero are not modelled.  The theorems therefore say which
      expression the code evaluates, and state an equality or a bound
      between two results only where the rounded computation keeps it.
    - The integer arrays hold 64-bit integers.  Counts and indices stay
      far below the bound and are unbounded naturals; the one operation
      that overflows on small inputs, the gain [2 ** gt_pos - 1], wraps
      around as numpy does ([wrap64]).
    - A Python exception is the [Raise] branch of [pyresult]. *)

From Stdlib Require Import Reals Lra Lia ZArith.
From stdpp Require Import base numbers list sorting strings pretty.

(** ** Exceptions *)

Inductive exn := ValueError | IndexError.

Inductive pyresult (A : Type) : Type :=
| Ok (a : A)
| Raise (e : exn).
Arguments Ok {A} a.
Arguments Raise {A} e.

#[global] Instance pyresult_bind : MBind pyresult := fun A B f m =>
  match m with
  | Ok a => f a
  | Raise e => Raise e
  end.

#[global] Instance pyresult_ret : MRet pyresult := fun A a => Ok a.

(** ** Floating-point values, without rounding *)

Inductive npfloat := Fin (r : R) | PInf | NInf | NaN.

Module NpFloat.

Definition add (x y : npfloat) : npfloat :=
  match x, y with
  | NaN, _ | _, NaN => NaN
  | Fin a, Fin b => Fin (a + b)
  | PInf, NInf | NInf, PInf => NaN
  | PInf, _ | _, PInf => PInf
  | NInf, _ | _, NInf => NInf
  end.

(** The infinity that has the sign of [s] times the sign of the finite
    nonzero number [a]. *)
Definition signed_inf (s : bool) (a : R) : npfloat :=
  if Rlt_dec 0 a then (if s then PInf else NInf)
  else (if s then NInf else PInf).

Definition mul (x y : npfloat) : npfloat :=
  match x, y with
  | NaN, _ | _, NaN => NaN
  | Fin a, Fin b => Fin (a * b)
  | Fin a, PInf | PInf, Fin a =>
      if Req_dec_T a 0 then NaN else signed_inf true a
  | Fin a, NInf | NInf, Fin a =>
      if Req_dec_T a 0 then NaN else signed_inf false a
  | PInf, PInf | NInf, NInf => PInf
  | PInf, NInf | NInf, PInf => NInf
  end.

(** Division never raises: a zero divisor gives a not-a-number or an
    infinity, as numpy scalars and arrays do. *)
Definition div (x y : npfloat) : npfloat :=
  match x, y with
  | NaN, _ | _, NaN => NaN
  | Fin a, Fin b =>
      if Req_dec_T b 0 then
        (if Req_dec_T a 0 then NaN else signed_inf true a)
      else Fin (a / b)
  | Fin _, PInf | Fin _, NInf => Fin 0
  | PInf, Fin b => if Rlt_dec b 0 then NInf else PInf
  | NInf, Fin b => if Rlt_dec b 0 then PInf else NInf
  | PInf, PInf | PInf, NInf | NInf, PInf | NInf, NInf => NaN
  end.

(** [gt x y] is the comparison [x > y]; it is false as soon as one side
    is not a number. *)
Definition gt (x y : npfloat) : bool :=
  match x, y with
  | NaN, _ | _, NaN => false
  | Fin a, Fin b => if Rlt_dec b a then true else false
  | PInf, PInf => false
  | PInf, _ => true
  | NInf, _ => false
  | Fin _, PInf => false
  | Fin _, NInf => true
  end.

Definition of_nat (n : nat) : npfloat := Fin (INR n).

Definition sum (l : list npfloat) : npfloat := foldl add (Fin 0) l.

End NpFloat.

(** ** The numpy operations the metrics use *)

#[global] Instance Rlt_decision (x y : R) : Decision (x < y)%R := Rlt_dec x y.

Definition sum_R (l : list R) : R := foldr Rplus 0%R l.

Definition log2 (x : R) : R := (ln x / ln 2)%R.

(** Arithmetic on an [int64] array wraps around: the result is the
    representative of the exact one in the interval from [- 2 ^ 63] to
    [2 ^ 63 - 1]. *)
Definition wrap64 (z : Z) : Z := ((z + 2 ^ 63) mod 2 ^ 64 - 2 ^ 63)%Z.

(** [np.arange(n)] *)
Definition arange (n : nat) : list nat := seq 0 n.

(** [np.take(a, idx)]; an index out of range raises. *)
Definition np_take (a idx : list nat) : pyresult (list nat) :=
  match mapM (fun i => a !! i) idx with
  | Some v => Ok v
  | None => Raise IndexError
  end.

(** [np.nonzero(mask)[0]]: the positions at which [mask] holds, in
    increasing order; [nonzero_from] carries the position of the head. *)
Fixpoint nonzero_from (i : nat) (mask : list bool) : list nat :=
  match mask with
  | [] => []
  | b :: mask' =>
      if b then i :: nonzero_from (S i) mask' else nonzero_from (S i) mask'
  end.

Definition nonzero (mask : list bool) : list nat := nonzero_from 0 mask.

(** [a > 0] and [a.astype(bool)] on an integer array. *)
Definition gt0 (a : list nat) : list bool :=
  (fun r => bool_decide (0 < r)) <$> a.

Definition astype_bool (a : list nat) : list bool :=
  (fun r => bool_decide (r ≠ 0)) <$> a.

(** [np.in1d(a, b)] *)
Definition in1d (a b : list nat) : list bool :=
  (fun x => bool_decide (x ∈ b)) <$> a.

(** [a[idx] = 1] with an integer index array; an index out of range
    raises and nothing is written. *)
Definition put_ones (a idx : list nat) : pyresult (list nat) :=
  if bool_decide (Forall (fun i => i < length a) idx)
  then Ok (foldl (fun p i => <[i := 1]> p) a idx)
  else Raise IndexError.

(** [a[mask]] with a boolean mask, which must be as long as [a]. *)
Fixpoint compress (a : list R) (mask : list bool) : list R :=
  match a, mask with
  | x :: a', b :: mask' =>
      if b then x :: compress a' mask' else compress a' mask'
  | _, _ => []
  end.

Definition mask_select (a : list R) (mask : list bool) : pyresult (list R) :=
  if bool_decide (length mask = length a) then Ok (compress a mask)
  else Raise IndexError.

(** [np.sum(x > a)] for a scalar [x]: how many entries of [a] lie
    strictly below [x]. *)
Definition count_below (x : R) (a : list R) : nat :=
  length (filter (fun y => (y < x)%R) a).

(** [np.argsort(a)]: the indices of [a] in ascending order of their
    entries.  numpy leaves the order of equal entries to the sorting
    algorithm; the model takes the one of a merge sort, and
    [dcg_score_ideal_any] shows that the metrics do not depend on it. *)
Definition key (a : list nat) (i : nat) : nat := default 0 (a !! i).

Definition key_le (a : list nat) : relation nat :=
  fun i j => key a i ≤ key a j.

#[global] Instance key_le_dec a i j : Decision (key_le a i j) :=
  decide (key a i ≤ key a j).

Definition argsort (a : list nat) : list nat :=
  merge_sort (key_le a) (arange (length a)).

(** [pd_rank[:k]] under the guard [if k > 0]. *)
Definition top_k (k : Z) (pd_rank : list nat) : list nat :=
  if bool_decide (0 < k)%Z then take (Z.to_nat k) pd_rank else pd_rank.

(** ** The metric classes *)

Record RankingMetric := {
  type : string;
  name : option string;
  k : Z
}.

Definition RankingMetric_init (name : option string) (k : Z) : RankingMetric :=
  {| type := "ranking"; name := name; k := k |}.

Module NDCG.

Definition init (k : Z) : RankingMetric :=
  RankingMetric_init (Some ("NDCG@" +:+ pretty k)) k.

(** [2 ** gt_pos - 1] on an [int64] array: the power and the difference
    both wrap around. *)
Definition gain (r : nat) : Z := wrap64 (wrap64 (2 ^ Z.of_nat r) - 1).

Definition discounts (n : nat) : list R :=
  (fun i => log2 (INR i + 2)) <$> arange n.

Definition dcg_score (gt_pos pd_rank : list nat) (k : Z) : pyresult R :=
  let pd_rank := top_k k pd_rank in
  gt_pos ← np_take gt_pos pd_rank;
  let gain := gain <$> gt_pos in
  let discounts := discounts (length gt_pos) in
  Ok (sum_R (zip_with Rdiv (IZR <$> gain) discounts)).

Definition compute (self : RankingMetric) (gt_pos pd_rank : list nat)
  : pyresult npfloat :=
  dcg ← dcg_score gt_pos pd_rank (k self);
  idcg ← dcg_score gt_pos (reverse (argsort gt_pos)) (k self);
  Ok (NpFloat.div (Fin dcg) (Fin idcg)).

End NDCG.

Module NCRR.

Definition init (k : Z) : RankingMetric :=
  RankingMetric_init (Some ("NCRR@" +:+ pretty k)) k.

(** [np.sum(1. / ranks)] for an array of ranks, all at least one. *)
Definition sum_reciprocal (ranks : list nat) : R :=
  sum_R ((fun r => 1 / INR r)%R <$> ranks).

Definition compute (self : RankingMetric) (gt_pos pd_rank : list nat)
  : npfloat :=
  let gt_pos_items := nonzero (gt0 gt_pos) in
  let ideal_rank := arange (length gt_pos_items) in
  let ideal_rank := (fun i => i + 1) <$> ideal_rank in
  let icrr := sum_reciprocal ideal_rank in
  let rec_rank := nonzero (in1d pd_rank gt_pos_items) in
  let rec_rank := (fun i => i + 1) <$> rec_rank in
  let crr := sum_reciprocal rec_rank in
  NpFloat.div (Fin crr) (Fin icrr).

End NCRR.

Module MRR.

Definition init : RankingMetric := RankingMetric_init (Some "MRR") (-1).

Definition compute (self : RankingMetric) (gt_pos pd_rank : list nat)
  : pyresult R :=
  let gt_pos_items := nonzero (gt0 gt_pos) in
  let matched_items := nonzero (in1d pd_rank gt_pos_items) in
  match matched_items with
  | [] => Raise ValueError
  | first :: _ => Ok (1 / INR (first + 1))%R
  end.

End MRR.

Module MeasureAtK.

Definition init (name : option string) (k : Z) : RankingMetric :=
  RankingMetric_init name k.

Definition compute (self : RankingMetric) (gt_pos pd_rank : list nat)
  : pyresult (nat * nat * nat) :=
  let pd_rank := top_k (k self) pd_rank in
  let pred := replicate (length gt_pos) 0 in
  pred ← put_ones pred pd_rank;
  let tp := sum_list (zip_with Nat.mul pred gt_pos) in
  let tp_fn := sum_list gt_pos in
  let tp_fp := sum_list pred in
  Ok (tp, tp_fn, tp_fp).

End MeasureAtK.

Module Precision.

Definition init (k : Z) : RankingMetric :=
  MeasureAtK.init (Some ("Precision@" +:+ pretty k)) k.

Definition compute (self : RankingMetric) (gt_pos pd_rank : list nat)
  : pyresult npfloat :=
  '(tp, tp_fn, tp_fp) ← MeasureAtK.compute self gt_pos pd_rank;
  Ok (NpFloat.div (NpFloat.of_nat tp) (NpFloat.of_nat tp_fp)).

End Precision.

Module Recall.

Definition init (k : Z) : RankingMetric :=
  MeasureAtK.init (Some ("Recall@" +:+ pretty k)) k.

Definition compute (self : RankingMetric) (gt_pos pd_rank : list nat)
  : pyresult npfloat :=
  '(tp, tp_fn, tp_fp) ← MeasureAtK.compute self gt_pos pd_rank;
  Ok (NpFloat.div (NpFloat.of_nat tp) (NpFloat.of_nat tp_fn)).

End Recall.

Module FMeasure.

Definition init (k : Z) : RankingMetric :=
  MeasureAtK.init (Some ("F1@" +:+ pretty k)) k.

Definition compute (self : RankingMetric) (gt_pos pd_rank : list nat)
  : pyresult npfloat :=
  '(tp, tp_fn, tp_fp) ← MeasureAtK.compute self gt_pos pd_rank;
  let prec := NpFloat.div (NpFloat.of_nat tp) (NpFloat.of_nat tp_fp) in
  let rec := NpFloat.div (NpFloat.of_nat tp) (NpFloat.of_nat tp_fn) in
  if NpFloat.gt (NpFloat.add prec rec) (Fin 0) then
    Ok (NpFloat.div (NpFloat.mul (Fin 2) (NpFloat.mul prec rec))
                    (NpFloat.add prec rec))
  else Ok (Fin 0).

End FMeasure.

Module AUC.

Definition init : RankingMetric := RankingMetric_init (Some "AUC") (-1).

Definition compute (self : RankingMetric) (pd_scores : list R)
    (gt_pos gt_neg : list nat) : pyresult npfloat :=
  pos_scores ← mask_select pd_scores (astype_bool gt_pos);
  neg_scores ← mask_select pd_scores (astype_bool gt_neg);
  let auc :=
    (fun pos_score =>
       NpFloat.div (NpFloat.of_nat (count_below pos_score neg_scores))
                   (NpFloat.of_nat (length neg_scores))) <$> pos_scores in
  Ok (NpFloat.div (NpFloat.sum auc) (NpFloat.of_nat (length auc))).

End AUC.

(** * Specification vocabulary *)

(** An item is positive when it indexes a positive entry of the relevance
    vector. *)
Definition positive (gt_pos : list nat) (i : nat) : Prop :=
  ∃ r, gt_pos !! i = Some r ∧ 0 < r.

#[global] Instance positive_dec gt_pos i : Decision (positive gt_pos i).
Proof.
  unfold positive. destruct (gt_pos !! i) as [r|] eqn:E.
  - destruct (decide (0 < r)); [left; eauto | right; intros (? & [= <-] & ?); done].
  - right. intros (? & [=] & _).
Defined.

(** [p] is the smallest position of the rank that holds a positive item. *)
Definition first_hit (gt_pos pd_rank : list nat) (p : nat) : Prop :=
  (∃ i, pd_rank !! p = Some i ∧ positive gt_pos i) ∧
  ∀ q i, q < p → pd_rank !! q = Some i → ¬ positive gt_pos i.

(** The 0/1 vector over the indices below [n] that marks the members of
    [items]. *)
Definition indicator (n : nat) (items : list nat) : list nat :=
  (fun i => if bool_decide (i ∈ items) then 1 else 0) <$> seq 0 n.


(** Every positive item of the rank comes before every item that is not
    positive. *)
Definition relevant_first (gt_pos pd_rank : list nat) : Prop :=
  ∀ i j x y, pd_rank !! i = Some x → pd_rank !! j = Some y →
    positive gt_pos x → ¬ positive gt_pos y → i < j.

(** The rank lists every item of the catalogue, each once. *)
Definition lists_every_item (gt_pos pd_rank : list nat) : Prop :=
  pd_rank ≡ₚ seq 0 (length gt_pos).

(** The items of [items] all index the relevance vector. *)
Definition in_range (gt_pos items : list nat) : Prop :=
  Forall (fun i => i < length gt_pos) items.

(** [sum_upto n f] is the sum of [f i] over the positions [i < n]. *)
Fixpoint sum_upto (n : nat) (f : nat → R) : R :=
  match n with
  | 0 => 0%R
  | S n' => (sum_upto n' f + f n')%R
  end.

(** The discounted cumulative gain as the specification writes it: the
    sum over the 0-indexed positions [i] of the rank of
    [(2 ^ gt_pos[rank[i]] - 1) / log2 (i + 2)]. *)
Definition dcg_formula (gt_pos rank : list nat) : R :=
  sum_upto (length rank)
    (fun i => ((2 ^ key gt_pos (default 0%nat (rank !! i)) - 1)
               / log2 (INR i + 2))%R).

(** An ideal ranking lists every index of the relevance vector once, in
    descending order of relevance. *)
Definition ideal_ranking (gt_pos l : list nat) : Prop :=
  l ≡ₚ seq 0 (length gt_pos) ∧
  StronglySorted (fun i j => key gt_pos j ≤ key gt_pos i) l.

(** The gain as the specification writes it, [2 ^ r - 1], and the
    relevance vectors on which the code computes it without overflow. *)
Definition pow_gain (r : nat) : nat := 2 ^ r - 1.

Definition fits_int64 (gt_pos : list nat) : Prop :=
  Forall (fun r => r ≤ 63) gt_pos.

(** The gains of the ranked items, and their discounted sum. *)
Definition gains (gt_pos rank : list nat) : list nat :=
  pow_gain <$> (key gt_pos <$> rank).

Definition discounted (g : list nat) : R :=
  sum_upto (length g)
    (fun i => (INR (default 0%nat (g !! i)) / log2 (INR i + 2))%R).

(** The number of positive items, as the metrics count them. *)
Definition num_positives (gt_pos : list nat) : nat :=
  length (nonzero (gt0 gt_pos)).

(** The score of an item, the items a mask marks, and the pairwise form
    of the area under the curve: the mean, over the positive items, of
    the fraction of negative items whose score lies strictly below. *)
Definition score (pd_scores : list R) (i : nat) : R :=
  default 0%R (pd_scores !! i).

Definition marked (mask : list nat) : list nat :=
  filter (fun i => key mask i ≠ 0) (seq 0 (length mask)).

Definition beaten (pd_scores : list R) (neg_items : list nat) (i : nat)
  : list nat :=
  filter (fun j => (score pd_scores j < score pd_scores i)%R) neg_items.

Definition auc_fraction (pd_scores : list R) (gt_neg : list nat) (i : nat)
  : R :=
  (INR (length (beaten pd_scores (marked gt_neg) i))
   / INR (length (marked gt_neg)))%R.

Definition auc_formula (pd_scores : list R) (gt_pos gt_neg : list nat) : R :=
  (sum_R (auc_fraction pd_scores gt_neg <$> marked gt_pos)
   / INR (length (marked gt_pos)))%R.




(** * Properties *)

(** ** Positions selected by a mask *)

Lemma elem_of_nonzero_from (i : nat) (mask : list bool) (p : nat) :
  p ∈ nonzero_from i mask ↔ ∃ j, p = i + j ∧ mask !! j = Some true.
Proof.
  revert i. induction mask as [|b mask IH]; intros i; simpl.
  - split; [intros H; inversion H | intros (j & _ & H); done].
  - destruct b; rewrite ?elem_of_cons, IH; split.
    + intros [-> | (j & -> & Hj)]; [exists 0 | exists (S j)]; split; (lia || done).
    + intros ([|j] & -> & Hj); [left; lia | right; exists j; split; [lia | done]].
    + intros (j & -> & Hj). exists (S j). split; [lia | done].
    + intros ([|j] & -> & Hj); [done | exists j; split; [lia | done]].
Qed.

Lemma nonzero_from_head (i : nat) (mask : list bool) (p : nat) (rest : list nat) :
  nonzero_from i mask = p :: rest →
  ∃ j, p = i + j ∧ mask !! j = Some true ∧ ∀ q, q < j → mask !! q = Some false.
Proof.
  revert i. induction mask as [|b mask IH]; intros i; simpl; [done|].
  destruct b.
  - intros [= <- _]. exists 0. split; [lia|]. split; [done|]. intros q Hq; lia.
  - intros (j & -> & Hj & Hlt)%IH. exists (S j). split; [lia|]. split; [done|].
    intros [|q] Hq; [done|]. apply Hlt. lia.
Qed.

Lemma nonzero_from_nil (i : nat) (mask : list bool) :
  nonzero_from i mask = [] ↔ ∀ j, mask !! j ≠ Some true.
Proof.
  split.
  - intros Hnil j Hj.
    assert (i + j ∈ nonzero_from i mask) as Hin
      by (apply elem_of_nonzero_from; eauto).
    rewrite Hnil in Hin. inversion Hin.
  - intros Hno. destruct (nonzero_from i mask) as [|p rest] eqn:E; [done|].
    apply nonzero_from_head in E as (j & _ & Hj & _). by destruct (Hno j).
Qed.

(** ** Positive items *)

Lemma elem_of_gt_pos_items (gt_pos : list nat) (i : nat) :
  i ∈ nonzero (gt0 gt_pos) ↔ positive gt_pos i.
Proof.
  unfold nonzero, gt0, positive. rewrite elem_of_nonzero_from. split.
  - intros (j & -> & Hj). rewrite list_lookup_fmap in Hj.
    destruct (gt_pos !! j) as [r|] eqn:E; simpl in Hj; [|done].
    injection Hj as Hb. apply bool_decide_eq_true in Hb. by exists r.
  - intros (r & Hr & Hpos). exists i. split; [lia|].
    rewrite list_lookup_fmap, Hr. simpl. f_equal. by apply bool_decide_eq_true.
Qed.

Lemma in1d_lookup_true (a b : list nat) (j : nat) :
  in1d a b !! j = Some true ↔ ∃ x, a !! j = Some x ∧ x ∈ b.
Proof.
  unfold in1d. rewrite list_lookup_fmap. split.
  - destruct (a !! j) as [x|]; simpl; [|done].
    intros [= H%bool_decide_eq_true]. eauto.
  - intros (x & -> & Hx). simpl. f_equal. by apply bool_decide_eq_true.
Qed.

Lemma in1d_lookup_false (a b : list nat) (j : nat) :
  in1d a b !! j = Some false ↔ ∃ x, a !! j = Some x ∧ x ∉ b.
Proof.
  unfold in1d. rewrite list_lookup_fmap. split.
  - destruct (a !! j) as [x|]; simpl; [|done].
    intros [= H%bool_decide_eq_false]. eauto.
  - intros (x & -> & Hx). simpl. f_equal. by apply bool_decide_eq_false.
Qed.

(** ** MRR *)

Lemma MRR_matched_head gt_pos pd_rank p rest :
  nonzero (in1d pd_rank (nonzero (gt0 gt_pos))) = p :: rest →
  first_hit gt_pos pd_rank p.
Proof.
  intros (j & -> & Hj & Hlt)%nonzero_from_head. simpl. split.
  - apply in1d_lookup_true in Hj as (x & Hx & Hin).
    exists x. split; [done|]. by apply elem_of_gt_pos_items.
  - intros q i Hq Hi Hpos. specialize (Hlt q Hq).
    apply in1d_lookup_false in Hlt as (x & Hx & Hnin). simplify_eq.
    by apply Hnin, elem_of_gt_pos_items.
Qed.

Lemma first_hit_unique gt_pos pd_rank p q :
  first_hit gt_pos pd_rank p → first_hit gt_pos pd_rank q → p = q.
Proof.
  intros [(i & Hi & Hpi) Hp] [(j & Hj & Hpj) Hq].
  destruct (Nat.lt_trichotomy p q) as [Hlt | [-> | Hlt]]; [|done|].
  - by destruct (Hq p i Hlt Hi).
  - by destruct (Hp q j Hlt Hj).
Qed.

Lemma MRR_no_match gt_pos pd_rank :
  nonzero (in1d pd_rank (nonzero (gt0 gt_pos))) = [] ↔
  ∀ i, i ∈ pd_rank → ¬ positive gt_pos i.
Proof.
  unfold nonzero at 1. rewrite nonzero_from_nil. split.
  - intros Hno i (j & Hj)%list_elem_of_lookup Hpos. apply (Hno j).
    apply in1d_lookup_true. exists i. split; [done|]. by apply elem_of_gt_pos_items.
  - intros Hno j (x & Hx & Hin)%in1d_lookup_true.
    apply (Hno x); [by eapply list_elem_of_lookup_2 | by apply elem_of_gt_pos_items].
Qed.

(** C1. [MRR.compute] raises the invalid-input error exactly when no item
    of the rank is positive; otherwise it returns [1 / (p + 1)] for the
    smallest 0-indexed position [p] of the rank that holds a positive
    item, and such a position exists. *)
Theorem MRR_compute_spec (self : RankingMetric) (gt_pos pd_rank : list nat) :
  (MRR.compute self gt_pos pd_rank = Raise ValueError ↔
     ∀ i, i ∈ pd_rank → ¬ positive gt_pos i) ∧
  (∀ p, first_hit gt_pos pd_rank p →
     MRR.compute self gt_pos pd_rank = Ok (1 / INR (p + 1))%R) ∧
  ((∃ i, i ∈ pd_rank ∧ positive gt_pos i) →
     ∃ p, first_hit gt_pos pd_rank p).
Proof.
  unfold MRR.compute.
  destruct (nonzero (in1d pd_rank (nonzero (gt0 gt_pos)))) as [|m rest] eqn:E.
  - pose proof (proj1 (MRR_no_match _ _) E) as Hno. split; [by split|]. split.
    + intros p [(i & Hi & Hpos) _]. destruct (Hno i); [|done].
      by eapply list_elem_of_lookup_2.
    + intros (i & Hi & Hpos). by destruct (Hno i).
  - pose proof (MRR_matched_head _ _ _ _ E) as Hm. split; [|split].
    + split; [done|]. intros Hno. exfalso. destruct Hm as [(i & Hi & Hpos) _].
      destruct (Hno i); [|done]. by eapply list_elem_of_lookup_2.
    + intros p Hp. by rewrite (first_hit_unique _ _ _ _ Hp Hm).
    + intros _. by exists m.
Qed.

Lemma MRR_compute_spec_witness :
  first_hit [0; 0; 1; 1] [1; 3; 2] 1 ∧
  MRR.compute MRR.init [0; 0; 1; 1] [1; 3; 2] = Ok (1 / INR (1 + 1))%R.
Proof.
  assert (first_hit [0; 0; 1; 1] [1; 3; 2] 1) as H.
  { split.
    - exists 3. split; [reflexivity|]. exists 1. split; [reflexivity | lia].
    - intros q i Hq Hi (r & Hr & Hpos).
      assert (q = 0) as -> by lia. simpl in Hi. injection Hi as <-.
      simpl in Hr. injection Hr as <-. lia. }
  split; [exact H|].
  exact (proj1 (proj2 (MRR_compute_spec MRR.init [0; 0; 1; 1] [1; 3; 2])) 1 H).
Defined.

(** ** The prediction indicator *)

Lemma foldl_put_lookup (idx a : list nat) (j : nat) :
  foldl (fun p i => <[i := 1]> p) a idx !! j =
  if bool_decide (j ∈ idx ∧ j < length a) then Some 1 else a !! j.
Proof.
  revert a. induction idx as [|i idx IH]; intros a; cbn [foldl].
  - case_bool_decide as H; [|done]. destruct H as [H _]. inversion H.
  - rewrite IH, length_insert.
    case_bool_decide as H1; case_bool_decide as H2; try done.
    + destruct H2. split; [apply elem_of_cons; right|]; tauto.
    + destruct H2 as [[->|Hin]%elem_of_cons Hlt]; [|tauto].
      by rewrite list_lookup_insert_eq.
    + destruct (decide (i = j)) as [->|Hij].
      * rewrite list_insert_ge; [done|].
        destruct (decide (length a ≤ j)); [done|].
        destruct H2. split; [apply elem_of_cons; by left | lia].
      * by rewrite list_lookup_insert_ne.
Qed.

Lemma indicator_lookup (n : nat) (items : list nat) (j : nat) :
  indicator n items !! j =
  if bool_decide (j < n) then Some (if bool_decide (j ∈ items) then 1 else 0)
  else None.
Proof.
  unfold indicator. rewrite list_lookup_fmap.
  destruct (decide (j < n)) as [Hlt|Hge].
  - rewrite lookup_seq_lt by done. by rewrite bool_decide_eq_true_2.
  - rewrite lookup_seq_ge by lia. by rewrite bool_decide_eq_false_2.
Qed.

Lemma put_ones_indicator (n : nat) (idx : list nat) :
  Forall (fun i => i < n) idx →
  put_ones (replicate n 0) idx = Ok (indicator n idx).
Proof.
  intros Hidx. unfold put_ones. rewrite length_replicate.
  rewrite bool_decide_eq_true_2 by done. f_equal.
  apply list_eq. intros j.
  rewrite foldl_put_lookup, indicator_lookup, length_replicate.
  destruct (decide (j < n)) as [Hlt|Hge].
  - rewrite (bool_decide_eq_true_2 (j < n)) by done.
    destruct (decide (j ∈ idx)) as [Hin|Hnin].
    + by rewrite !bool_decide_eq_true_2.
    + rewrite (bool_decide_eq_false_2 (j ∈ idx)) by done.
      rewrite bool_decide_eq_false_2 by (intros [? _]; done).
      by apply lookup_replicate_2.
  - rewrite (bool_decide_eq_false_2 (j < n)) by done.
    rewrite bool_decide_eq_false_2 by (intros [_ ?]; done).
    apply lookup_ge_None. rewrite length_replicate. lia.
Qed.

Lemma put_ones_raise (n : nat) (idx : list nat) :
  ¬ Forall (fun i => i < n) idx →
  put_ones (replicate n 0) idx = Raise IndexError.
Proof.
  intros Hidx. unfold put_ones. rewrite length_replicate.
  by rewrite bool_decide_eq_false_2.
Qed.







Lemma positive_key (gt_pos : list nat) (i : nat) :
  positive gt_pos i ↔ 0 < key gt_pos i.
Proof.
  unfold positive, key. destruct (gt_pos !! i) as [r|]; simpl.
  - split; [by intros (? & [= <-] & ?) | eauto].
  - split; [by intros (? & [=] & _) | lia].
Qed.





(** ** Arithmetic of [npfloat] on counts *)

Lemma div_of_nat_pos (a b : nat) :
  0 < b →
  NpFloat.div (NpFloat.of_nat a) (NpFloat.of_nat b) = Fin (INR a / INR b).
Proof.
  intros Hb. unfold NpFloat.div, NpFloat.of_nat.
  destruct (Req_dec_T (INR b) 0) as [E|_]; [|done].
  apply lt_INR in Hb. simpl in Hb. lra.
Qed.

Lemma div_of_nat_zero_zero :
  NpFloat.div (NpFloat.of_nat 0) (NpFloat.of_nat 0) = NaN.
Proof.
  unfold NpFloat.div, NpFloat.of_nat. simpl.
  destruct (Req_dec_T 0 0) as [_|Hne]; [done | lra].
Qed.

Lemma div_Fin_nonzero (a b : R) :
  b ≠ 0%R → NpFloat.div (Fin a) (Fin b) = Fin (a / b).
Proof. intros Hb. simpl. by destruct (Req_dec_T b 0). Qed.


(** ** MeasureAtK *)

Lemma top_k_pos (k : Z) (pd_rank : list nat) :
  (0 < k)%Z → top_k k pd_rank = take (Z.to_nat k) pd_rank.
Proof. intros Hk. unfold top_k. by rewrite bool_decide_eq_true_2. Qed.

Lemma top_k_nonpos (k : Z) (pd_rank : list nat) :
  (k ≤ 0)%Z → top_k k pd_rank = pd_rank.
Proof. intros Hk. unfold top_k. rewrite bool_decide_eq_false_2; [done | lia]. Qed.


Lemma MeasureAtK_compute_Ok self gt_pos pd_rank :
  let n := length gt_pos in
  let top := top_k (k self) pd_rank in
  Forall (fun i => i < n) top →
  MeasureAtK.compute self gt_pos pd_rank =
  Ok (sum_list (zip_with Nat.mul (indicator n top) gt_pos),
      sum_list gt_pos,
      sum_list (indicator n top)).
Proof.
  intros n top Hin. unfold MeasureAtK.compute.
  fold top. fold n. by rewrite put_ones_indicator.
Qed.

Lemma MeasureAtK_compute_Raise self gt_pos pd_rank :
  ¬ Forall (fun i => i < length gt_pos) (top_k (k self) pd_rank) →
  MeasureAtK.compute self gt_pos pd_rank = Raise IndexError.
Proof.
  intros Hin. unfold MeasureAtK.compute. by rewrite put_ones_raise.
Qed.









(** ** Precision, recall and F-measure *)







Lemma ratio_le_1 (a b : nat) : 0 < b → a ≤ b → (0 <= INR a / INR b <= 1)%R.
Proof.
  intros Hb Hab. pose proof (pos_INR a). apply le_INR in Hab.
  apply lt_INR in Hb. simpl in Hb. split.
  - apply Rmult_le_pos; [lra|]. left. by apply Rinv_0_lt_compat.
  - apply (Rmult_le_reg_r (INR b)); [lra|].
    unfold Rdiv. rewrite Rmult_assoc, Rinv_l by lra. lra.
Qed.







(** ** NCRR *)

Lemma sum_R_app (l1 l2 : list R) :
  sum_R (l1 ++ l2) = (sum_R l1 + sum_R l2)%R.
Proof.
  induction l1 as [|x l1 IH]; simpl; [lra|]. rewrite IH. lra.
Qed.

Lemma sum_R_nonneg (l : list R) :
  Forall (fun x => (0 <= x)%R) l → (0 <= sum_R l)%R.
Proof.
  induction 1 as [|x l Hx _ IH]; simpl; lra.
Qed.

Lemma reciprocal_rank_pos (i : nat) : (0 < 1 / INR (i + 1))%R.
Proof.
  apply Rdiv_lt_0_compat; [lra|]. apply lt_0_INR. lia.
Qed.


Lemma sum_reciprocal_nonneg (l : list nat) :
  (0 <= NCRR.sum_reciprocal ((fun i => (i + 1)%nat) <$> l))%R.
Proof.
  unfold NCRR.sum_reciprocal. induction l as [|i l IH]; [simpl; lra|].
  rewrite !fmap_cons. simpl. pose proof (reciprocal_rank_pos i). lra.
Qed.

Lemma sum_reciprocal_pos (l : list nat) :
  l ≠ [] → (0 < NCRR.sum_reciprocal ((fun i => (i + 1)%nat) <$> l))%R.
Proof.
  destruct l as [|i l]; [done|]. intros _.
  pose proof (sum_reciprocal_nonneg l) as Hl.
  pose proof (reciprocal_rank_pos i) as Hi.
  unfold NCRR.sum_reciprocal in *. rewrite !fmap_cons. simpl. lra.
Qed.




Lemma length_nonzero_in1d (s : nat) (a b : list nat) :
  length (nonzero_from s (in1d a b)) = length (filter (.∈ b) a).
Proof.
  revert s. induction a as [|x a IH]; intros s; [done|].
  unfold in1d in *. rewrite fmap_cons, filter_cons. cbn [nonzero_from].
  case_bool_decide; case_decide; try done. simpl. by rewrite IH.
Qed.

Lemma nonzero_from_NoDup (s : nat) (mask : list bool) :
  NoDup (nonzero_from s mask).
Proof.
  revert s. induction mask as [|b mask IH]; intros s; simpl; [constructor|].
  destruct b; [|apply IH]. constructor; [|apply IH].
  intros (j & Hj & _)%elem_of_nonzero_from. lia.
Qed.

Lemma NCRR_hits_bound (gt_pos pd_rank : list nat) :
  NoDup pd_rank →
  length (nonzero (in1d pd_rank (nonzero (gt0 gt_pos))))
  ≤ length (nonzero (gt0 gt_pos)).
Proof.
  intros Hnd. unfold nonzero at 1. rewrite length_nonzero_in1d.
  apply submseteq_length, NoDup_submseteq; [by apply NoDup_filter|].
  by intros x [Hx _]%list_elem_of_filter.
Qed.


Lemma gt_pos_items_nonempty (gt_pos : list nat) :
  (∃ i, positive gt_pos i) → nonzero (gt0 gt_pos) ≠ [].
Proof.
  intros (i & Hi%elem_of_gt_pos_items) Hnil. rewrite Hnil in Hi. inversion Hi.
Qed.


Lemma nonzero_from_trues_first (s : nat) (mask : list bool) :
  (∀ i j, mask !! i = Some true → mask !! j = Some false → i < j) →
  nonzero_from s mask = seq s (length (nonzero_from s mask)).
Proof.
  revert s. induction mask as [|b mask IH]; intros s Hord; [done|].
  destruct b; cbn [nonzero_from].
  - cbn [length seq]. f_equal. apply IH. intros i j Hi Hj.
    specialize (Hord (S i) (S j) Hi Hj). lia.
  - assert (nonzero_from (S s) mask = []) as ->; [|done].
    apply nonzero_from_nil. intros j Hj.
    specialize (Hord (S j) 0 Hj eq_refl). lia.
Qed.

Lemma positive_lt (gt_pos : list nat) (i : nat) :
  positive gt_pos i → i < length gt_pos.
Proof. intros (r & Hr & _). by eapply lookup_lt_Some. Qed.

Lemma NCRR_hits_all (gt_pos pd_rank : list nat) :
  lists_every_item gt_pos pd_rank →
  length (nonzero (in1d pd_rank (nonzero (gt0 gt_pos))))
  = length (nonzero (gt0 gt_pos)).
Proof.
  intros Hall. unfold lists_every_item in Hall.
  unfold nonzero at 1. rewrite length_nonzero_in1d.
  apply Permutation_length, NoDup_Permutation.
  - apply NoDup_filter. rewrite Hall. apply NoDup_seq.
  - apply nonzero_from_NoDup.
  - intros x. rewrite list_elem_of_filter. split; [by intros [? _]|].
    intros Hx. split; [done|]. rewrite Hall, elem_of_seq.
    apply elem_of_gt_pos_items, positive_lt in Hx. lia.
Qed.

Lemma NCRR_hits_relevant_first (gt_pos pd_rank : list nat) :
  lists_every_item gt_pos pd_rank → relevant_first gt_pos pd_rank →
  nonzero (in1d pd_rank (nonzero (gt0 gt_pos)))
  = arange (length (nonzero (gt0 gt_pos))).
Proof.
  intros Hall Hfirst. rewrite <- (NCRR_hits_all _ _ Hall).
  apply nonzero_from_trues_first.
  intros i j (x & Hx & Hxin)%in1d_lookup_true (y & Hy & Hyin)%in1d_lookup_false.
  apply (Hfirst i j x y Hx Hy); by rewrite <- elem_of_gt_pos_items.
Qed.

Lemma div_Fin_self (x : R) : (0 < x)%R → NpFloat.div (Fin x) (Fin x) = Fin 1.
Proof.
  intros Hx. rewrite div_Fin_nonzero by lra. f_equal.
  unfold Rdiv. apply Rinv_r. lra.
Qed.

Lemma NCRR_compute_ideal self (gt_pos pd_rank : list nat) :
  (∃ i, positive gt_pos i) →
  lists_every_item gt_pos pd_rank → relevant_first gt_pos pd_rank →
  NCRR.compute self gt_pos pd_rank = Fin 1.
Proof.
  intros Hpos Hall Hfirst. unfold NCRR.compute. cbv zeta.
  rewrite (NCRR_hits_relevant_first _ _ Hall Hfirst).
  apply div_Fin_self, sum_reciprocal_pos. unfold arange.
  apply gt_pos_items_nonempty in Hpos. revert Hpos.
  generalize (nonzero (gt0 gt_pos)). by intros [|x l].
Qed.

Lemma NCRR_compute_example_full :
  NCRR.compute (NCRR.init 1) [1; 1] [0; 1] = Fin 1.
Proof.
  apply NCRR_compute_ideal.
  - exists 0, 1. split; [reflexivity | lia].
  - unfold lists_every_item. reflexivity.
  - intros i j x y Hx Hy _ Hn. destruct Hn.
    destruct j as [|[|j]]; simpl in Hy;
      [injection Hy as <- | injection Hy as <- | discriminate Hy];
      (exists 1; split; [reflexivity | lia]).
Qed.

(** C10. The NCRR score does not depend on the configured [k]: the
    computation never reads it and never truncates the rank, although
    the metric is named after it.  Truncating the rank by hand changes
    the score. *)
Theorem NCRR_compute_k_independent (gt_pos pd_rank : list nat) :
  (∀ k1 k2 : Z,
     NCRR.compute (NCRR.init k1) gt_pos pd_rank
     = NCRR.compute (NCRR.init k2) gt_pos pd_rank) ∧
  (∀ self1 self2 : RankingMetric,
     NCRR.compute self1 gt_pos pd_rank = NCRR.compute self2 gt_pos pd_rank) ∧
  (name (NCRR.init 1) = Some "NCRR@1"%string ∧
   k (NCRR.init 1) = 1%Z ∧
   NCRR.compute (NCRR.init 1) [1; 1] [0; 1] = Fin 1 ∧
   NCRR.compute (NCRR.init 1) [1; 1] (top_k 1 [0; 1]) ≠ Fin 1).
Proof.
  split; [reflexivity|]. split; [reflexivity|].
  split; [reflexivity|]. split; [reflexivity|].
  split; [apply NCRR_compute_example_full|].
  unfold NCRR.compute. cbv zeta.
  repeat match goal with
         | |- context [nonzero ?m] =>
             let v := eval vm_compute in (nonzero m) in
             change (nonzero m) with v
         end.
  unfold NCRR.sum_reciprocal, arange.
  cbn [length seq fmap list_fmap sum_R foldr Nat.add INR].
  rewrite div_Fin_nonzero by lra. intros [= H]. lra.
Qed.

(** ** Discounted cumulative gain *)

Lemma sum_upto_ext (n : nat) (f g : nat → R) :
  (∀ i, i < n → f i = g i) → sum_upto n f = sum_upto n g.
Proof.
  induction n as [|n IH]; intros H; [done|]. simpl.
  rewrite IH by (intros i Hi; apply H; lia). rewrite H by lia. done.
Qed.

Lemma sum_upto_le (n : nat) (f g : nat → R) :
  (∀ i, i < n → (f i <= g i)%R) → (sum_upto n f <= sum_upto n g)%R.
Proof.
  induction n as [|n IH]; intros H; simpl; [lra|].
  assert (f n <= g n)%R by (apply H; lia).
  assert (sum_upto n f <= sum_upto n g)%R by (apply IH; intros i Hi; apply H; lia).
  lra.
Qed.

Lemma sum_upto_nonneg (n : nat) (f : nat → R) :
  (∀ i, i < n → (0 <= f i)%R) → (0 <= sum_upto n f)%R.
Proof.
  induction n as [|n IH]; intros H; simpl; [lra|].
  assert (0 <= f n)%R by (apply H; lia).
  assert (0 <= sum_upto n f)%R by (apply IH; intros i Hi; apply H; lia).
  lra.
Qed.

Lemma sum_upto_mono (m n : nat) (f : nat → R) :
  m ≤ n → (∀ i, m ≤ i < n → (0 <= f i)%R) →
  (sum_upto m f <= sum_upto n f)%R.
Proof.
  induction n as [|n IH]; intros Hmn H.
  - assert (m = 0) as -> by lia. simpl. lra.
  - destruct (decide (m = S n)) as [->|Hne]; [lra|]. simpl.
    assert (0 <= f n)%R by (apply H; lia).
    assert (sum_upto m f <= sum_upto n f)%R
      by (apply IH; [lia | intros i Hi; apply H; lia]).
    lra.
Qed.

Lemma sum_upto_tail_zero (m n : nat) (f : nat → R) :
  m ≤ n → (∀ i, m ≤ i < n → f i = 0%R) → sum_upto n f = sum_upto m f.
Proof.
  induction n as [|n IH]; intros Hmn H.
  - by assert (m = 0) as -> by lia.
  - destruct (decide (m = S n)) as [->|Hne]; [done|]. simpl.
    rewrite H by lia. rewrite IH; [lra | lia | intros i Hi; apply H; lia].
Qed.

Lemma ln_2_pos : (0 < ln 2)%R.
Proof. pose proof ln_lt_2. lra. Qed.

Lemma log2_pos (x : R) : (1 < x)%R → (0 < log2 x)%R.
Proof.
  intros Hx. unfold log2. apply Rdiv_lt_0_compat; [|apply ln_2_pos].
  rewrite <- ln_1. apply ln_increasing; lra.
Qed.


Lemma log2_2 : log2 2 = 1%R.
Proof. unfold log2, Rdiv. apply Rinv_r. pose proof ln_2_pos. lra. Qed.

Lemma discount_pos (i : nat) : (0 < log2 (INR i + 2))%R.
Proof. apply log2_pos. pose proof (pos_INR i). lra. Qed.


Lemma INR_gain (r : nat) : INR (pow_gain r) = (2 ^ r - 1)%R.
Proof.
  unfold pow_gain.
  assert (1 ≤ 2 ^ r) by (apply Nat.neq_0_lt_0, Nat.pow_nonzero; lia).
  rewrite minus_INR by done. rewrite pow_INR. simpl (INR 2). simpl (INR 1).
  done.
Qed.

Lemma gain_mono (r s : nat) : r ≤ s → pow_gain r ≤ pow_gain s.
Proof.
  intros Hrs. unfold pow_gain.
  pose proof (Nat.pow_le_mono_r 2 r s ltac:(lia) Hrs). lia.
Qed.

Lemma gain_pos (r : nat) : 0 < r → 0 < pow_gain r.
Proof.
  intros Hr. pose proof (gain_mono 1 r Hr) as H. unfold pow_gain in *.
  simpl in H. lia.
Qed.

Lemma gain_zero : pow_gain 0 = 0.
Proof. reflexivity. Qed.

(** *** The gain on 64-bit integers *)

Lemma wrap64_sub_1 (a : Z) :
  (- 2 ^ 63 < a ≤ 2 ^ 63)%Z → wrap64 (wrap64 a - 1) = (a - 1)%Z.
Proof.
  intros Ha. unfold wrap64.
  replace ((a + 2 ^ 63) mod 2 ^ 64 - 2 ^ 63 - 1 + 2 ^ 63)%Z
    with ((a + 2 ^ 63) mod 2 ^ 64 + (-1))%Z by lia.
  rewrite Zplus_mod_idemp_l.
  rewrite Z.mod_small; lia.
Qed.

Lemma Z_pow_2_le (r : nat) : r ≤ 63 → (0 < 2 ^ Z.of_nat r ≤ 2 ^ 63)%Z.
Proof.
  intros Hr. split; [apply Z.pow_pos_nonneg; lia|].
  apply Z.pow_le_mono_r; lia.
Qed.

(** Up to relevance 63 the code computes the gain [2 ^ r - 1]. *)
Lemma gain_fits (r : nat) : r ≤ 63 → NDCG.gain r = Z.of_nat (pow_gain r).
Proof.
  intros Hr. pose proof (Z_pow_2_le r Hr) as Hp.
  unfold NDCG.gain, pow_gain. rewrite wrap64_sub_1 by lia.
  assert (1 ≤ 2 ^ r) by (apply Nat.neq_0_lt_0, Nat.pow_nonzero; lia).
  rewrite Nat2Z.inj_sub, Nat2Z.inj_pow by done. done.
Qed.

(** From relevance 64 on the power wraps to 0 and the gain is -1. *)
Lemma gain_wraps (r : nat) : 64 ≤ r → NDCG.gain r = (-1)%Z.
Proof.
  intros Hr. unfold NDCG.gain.
  assert (wrap64 (2 ^ Z.of_nat r) = 0%Z) as ->; [|done].
  unfold wrap64.
  replace (Z.of_nat r) with (Z.of_nat (r - 64) + 64)%Z by lia.
  rewrite Z.pow_add_r by lia.
  rewrite Z.add_comm, Z.mod_add by lia. done.
Qed.

Lemma fits_key (gt_pos : list nat) (i : nat) :
  fits_int64 gt_pos → key gt_pos i ≤ 63.
Proof.
  intros Hfit. unfold key. destruct (gt_pos !! i) as [r|] eqn:E; simpl; [|lia].
  apply (Forall_lookup_1 _ _ _ _ Hfit E).
Qed.


Lemma no_positive_fits (gt_pos : list nat) :
  (∀ i, ¬ positive gt_pos i) → fits_int64 gt_pos.
Proof.
  intros Hno. apply Forall_lookup. intros i r Hr.
  destruct (decide (0 < r)) as [Hpos|]; [|lia].
  destruct (Hno i). by exists r.
Qed.

Lemma code_gains_fit (gt_pos l : list nat) :
  fits_int64 gt_pos →
  IZR <$> (NDCG.gain <$> (key gt_pos <$> l)) = INR <$> gains gt_pos l.
Proof.
  intros Hfit. unfold gains. rewrite <- !list_fmap_compose.
  apply list_fmap_ext. intros j i _. unfold compose.
  rewrite gain_fits by by apply fits_key. symmetry. apply INR_IZR_INZ.
Qed.

(** The sum the code forms from the array of gains and the array of
    discounts is the positional sum. *)
Lemma code_sum_discounted (g : list nat) :
  sum_R (zip_with Rdiv (INR <$> g) (NDCG.discounts (length g)))
  = discounted g.
Proof.
  unfold discounted, NDCG.discounts, arange.
  induction g as [|x g IH] using rev_ind; [done|].
  rewrite length_app. simpl (length [x]). rewrite Nat.add_1_r, seq_S.
  rewrite !fmap_app, zip_with_app by (by rewrite !length_fmap, length_seq).
  rewrite sum_R_app, IH. simpl.
  rewrite (sum_upto_ext (length g)
             (fun i => (INR (default 0%nat ((g ++ [x]) !! i))
                        / log2 (INR i + 2))%R)
             (fun i => (INR (default 0%nat (g !! i)) / log2 (INR i + 2))%R)).
  - rewrite lookup_app_r by done. rewrite Nat.sub_diag. simpl. lra.
  - intros i Hi. by rewrite lookup_app_l.
Qed.

Lemma np_take_in_range (gt_pos idx : list nat) :
  in_range gt_pos idx → np_take gt_pos idx = Ok (key gt_pos <$> idx).
Proof.
  intros Hin. unfold np_take.
  rewrite (mapM_Some_2 _ _ (key gt_pos <$> idx)); [done|].
  induction Hin as [|i idx Hi _ IH]; [constructor|].
  rewrite fmap_cons. constructor; [|exact IH].
  unfold key. by destruct (lookup_lt_is_Some_2 gt_pos i Hi) as [r ->].
Qed.

Lemma np_take_out_of_range (gt_pos idx : list nat) :
  ¬ in_range gt_pos idx → np_take gt_pos idx = Raise IndexError.
Proof.
  intros Hout. unfold np_take.
  destruct (mapM _ idx) as [v|] eqn:E; [|done].
  destruct Hout. apply mapM_Some_1 in E.
  apply Forall_forall. intros i Hi.
  apply list_elem_of_lookup in Hi as (j & Hj).
  destruct (Forall2_lookup_l _ _ _ _ _ E Hj) as (r & _ & Hr).
  by eapply lookup_lt_Some.
Qed.

Lemma dcg_score_in_range (gt_pos pd_rank : list nat) (k : Z) :
  fits_int64 gt_pos → in_range gt_pos (top_k k pd_rank) →
  NDCG.dcg_score gt_pos pd_rank k
  = Ok (discounted (gains gt_pos (top_k k pd_rank))).
Proof.
  intros Hfit Hin. unfold NDCG.dcg_score. rewrite np_take_in_range by done.
  unfold mbind, pyresult_bind. f_equal.
  rewrite length_fmap, code_gains_fit by done.
  rewrite <- code_sum_discounted. unfold gains. by rewrite !length_fmap.
Qed.

(** Whatever the relevances are, a rank in range gets a value, and the
    value depends on the rank only through the relevances it takes. *)
Lemma dcg_score_returns (gt_pos pd_rank : list nat) (k : Z) :
  in_range gt_pos (top_k k pd_rank) →
  ∃ d, NDCG.dcg_score gt_pos pd_rank k = Ok d.
Proof.
  intros Hin. unfold NDCG.dcg_score. rewrite np_take_in_range by done.
  eexists. done.
Qed.

Lemma dcg_score_same_relevances (gt_pos l1 l2 : list nat) (k : Z) :
  in_range gt_pos (top_k k l1) → in_range gt_pos (top_k k l2) →
  key gt_pos <$> top_k k l1 = key gt_pos <$> top_k k l2 →
  NDCG.dcg_score gt_pos l1 k = NDCG.dcg_score gt_pos l2 k.
Proof.
  intros H1 H2 Hk. unfold NDCG.dcg_score.
  rewrite !np_take_in_range by done. by rewrite Hk.
Qed.

Lemma dcg_score_out_of_range (gt_pos pd_rank : list nat) (k : Z) :
  ¬ in_range gt_pos (top_k k pd_rank) →
  NDCG.dcg_score gt_pos pd_rank k = Raise IndexError.
Proof.
  intros Hout. unfold NDCG.dcg_score. by rewrite np_take_out_of_range.
Qed.

Lemma discounted_gains_formula (gt_pos rank : list nat) :
  discounted (gains gt_pos rank) = dcg_formula gt_pos rank.
Proof.
  unfold discounted, dcg_formula, gains. rewrite !length_fmap.
  apply sum_upto_ext. intros i Hi.
  rewrite !list_lookup_fmap.
  destruct (lookup_lt_is_Some_2 rank i Hi) as [x ->]. simpl.
  by rewrite INR_gain.
Qed.

Lemma top_k_idemp (k : Z) (l : list nat) : top_k (-1) (top_k k l) = top_k k l.
Proof. by apply top_k_nonpos. Qed.

(** ** The ideal ranking *)

Lemma StronglySorted_reverse {A} (R : relation A) (l : list A) :
  StronglySorted R l → StronglySorted (flip R) (reverse l).
Proof.
  induction 1 as [|x l _ IH Hx]; [constructor|].
  rewrite reverse_cons. apply StronglySorted_app_2.
  - intros x1 x2 Hx1 ->%list_elem_of_singleton. unfold flip.
    rewrite elem_of_reverse in Hx1. rewrite Forall_forall in Hx. by apply Hx.
  - exact IH.
  - apply SSorted_cons; constructor.
Qed.

#[local] Instance key_le_trans (a : list nat) : Transitive (key_le a).
Proof. intros x y z. unfold key_le. lia. Qed.

#[local] Instance key_le_total (a : list nat) : Total (key_le a).
Proof. intros x y. unfold key_le. lia. Qed.

Lemma argsort_Permutation (a : list nat) : argsort a ≡ₚ seq 0 (length a).
Proof. apply merge_sort_Permutation. Qed.

Lemma ideal_ranking_argsort (gt_pos : list nat) :
  ideal_ranking gt_pos (reverse (argsort gt_pos)).
Proof.
  split.
  - rewrite reverse_Permutation. apply argsort_Permutation.
  - apply (StronglySorted_reverse (key_le gt_pos)).
    apply StronglySorted_merge_sort; apply _.
Qed.

Lemma ideal_ranking_in_range (gt_pos l : list nat) :
  ideal_ranking gt_pos l → in_range gt_pos l.
Proof.
  intros [Hperm _]. apply Forall_forall. intros i Hi.
  rewrite Hperm in Hi. apply elem_of_seq in Hi. lia.
Qed.

Lemma in_range_top_k (gt_pos l : list nat) (k : Z) :
  in_range gt_pos l → in_range gt_pos (top_k k l).
Proof.
  intros Hin. unfold top_k. case_bool_decide; [by apply Forall_take | done].
Qed.

Lemma top_k_fmap (f : nat → nat) (k : Z) (l : list nat) :
  f <$> top_k k l = top_k k (f <$> l).
Proof. unfold top_k. case_bool_decide; [apply fmap_take | done]. Qed.

Lemma gains_top_k (gt_pos l : list nat) (k : Z) :
  gains gt_pos (top_k k l) = top_k k (gains gt_pos l).
Proof. unfold gains. by rewrite !top_k_fmap. Qed.

#[local] Instance ge_antisymm : AntiSymm eq (fun x y : nat => y ≤ x).
Proof. intros x y ??. lia. Qed.

Lemma ideal_keys_sorted (gt_pos l : list nat) :
  ideal_ranking gt_pos l →
  StronglySorted (fun x y : nat => y ≤ x) (key gt_pos <$> l).
Proof.
  intros [_ Hs]. eapply StronglySorted_fmap; [|exact Hs]. by intros x y.
Qed.

Lemma ideal_keys_unique (gt_pos l1 l2 : list nat) :
  ideal_ranking gt_pos l1 → ideal_ranking gt_pos l2 →
  key gt_pos <$> l1 = key gt_pos <$> l2.
Proof.
  intros H1 H2.
  apply (StronglySorted_unique (fun x y : nat => y ≤ x));
    [by apply ideal_keys_sorted | by apply ideal_keys_sorted |].
  apply fmap_Permutation. destruct H1 as [P1 _], H2 as [P2 _].
  by rewrite P1, P2.
Qed.

(** The DCG of an ideal ranking does not depend on how equal relevances
    are ordered, so the order [np.argsort] picks for them is immaterial. *)
Lemma dcg_score_ideal_any (gt_pos l1 l2 : list nat) (k : Z) :
  ideal_ranking gt_pos l1 → ideal_ranking gt_pos l2 →
  NDCG.dcg_score gt_pos l1 k = NDCG.dcg_score gt_pos l2 k.
Proof.
  intros H1 H2.
  apply dcg_score_same_relevances;
    [by apply in_range_top_k, ideal_ranking_in_range ..|].
  rewrite !top_k_fmap. by rewrite (ideal_keys_unique _ _ _ H1 H2).
Qed.

Lemma dcg_formula_ideal_any (gt_pos l1 l2 : list nat) (k : Z) :
  ideal_ranking gt_pos l1 → ideal_ranking gt_pos l2 →
  dcg_formula gt_pos (top_k k l1) = dcg_formula gt_pos (top_k k l2).
Proof.
  intros H1 H2. rewrite <- !discounted_gains_formula, !gains_top_k.
  unfold gains. by rewrite (ideal_keys_unique _ _ _ H1 H2).
Qed.

Lemma NDCG_compute_in_range self (gt_pos pd_rank : list nat) :
  fits_int64 gt_pos → in_range gt_pos (top_k (k self) pd_rank) →
  NDCG.compute self gt_pos pd_rank =
  Ok (NpFloat.div
        (Fin (discounted (gains gt_pos (top_k (k self) pd_rank))))
        (Fin (discounted
                (gains gt_pos (top_k (k self) (reverse (argsort gt_pos))))))).
Proof.
  intros Hfit Hin. unfold NDCG.compute.
  rewrite (dcg_score_in_range _ pd_rank) by done.
  rewrite dcg_score_in_range;
    [done | done
    | apply in_range_top_k, ideal_ranking_in_range, ideal_ranking_argsort].
Qed.

Lemma NDCG_compute_returns self (gt_pos pd_rank : list nat) :
  in_range gt_pos (top_k (k self) pd_rank) →
  ∃ x, NDCG.compute self gt_pos pd_rank = Ok x.
Proof.
  intros Hin. unfold NDCG.compute.
  destruct (dcg_score_returns gt_pos pd_rank (k self) Hin) as [d ->].
  destruct (dcg_score_returns gt_pos (reverse (argsort gt_pos)) (k self))
    as [idcg ->];
    [apply in_range_top_k, ideal_ranking_in_range, ideal_ranking_argsort|].
  eexists. done.
Qed.

Lemma NDCG_compute_out_of_range self (gt_pos pd_rank : list nat) :
  ¬ in_range gt_pos (top_k (k self) pd_rank) →
  NDCG.compute self gt_pos pd_rank = Raise IndexError.
Proof.
  intros Hout. unfold NDCG.compute.
  by rewrite (dcg_score_out_of_range _ pd_rank) by done.
Qed.

(** C2 (as amended). [dcg_score] truncates the rank to its first [k]
    entries when [k > 0] and keeps it otherwise, and, for relevances of
    at most 63, returns the sum over the 0-indexed positions [i] of
    [(2 ^ gt_pos[rank[i]] - 1) / log2 (i + 2)] (an item outside the
    relevance vector raises instead).  [NDCG.compute] returns the DCG of
    the rank divided by the DCG of the ideal ranking, both truncated
    alike; the ideal ranking is the index sequence of [gt_pos] in
    descending order of relevance, and its DCG is the same for every such
    sequence. *)
Theorem NDCG_dcg_score_compute_spec (self : RankingMetric)
    (gt_pos pd_rank : list nat) (k0 : Z) :
  let ideal := reverse (argsort gt_pos) in
  ((0 < k0)%Z → top_k k0 pd_rank = take (Z.to_nat k0) pd_rank) ∧
  ((k0 ≤ 0)%Z → top_k k0 pd_rank = pd_rank) ∧
  (fits_int64 gt_pos → in_range gt_pos (top_k k0 pd_rank) →
     NDCG.dcg_score gt_pos pd_rank k0
     = Ok (dcg_formula gt_pos (top_k k0 pd_rank))) ∧
  (¬ in_range gt_pos (top_k k0 pd_rank) →
     NDCG.dcg_score gt_pos pd_rank k0 = Raise IndexError) ∧
  ideal_ranking gt_pos ideal ∧
  (∀ l, ideal_ranking gt_pos l →
     NDCG.dcg_score gt_pos l (k self) = NDCG.dcg_score gt_pos ideal (k self)) ∧
  (fits_int64 gt_pos → in_range gt_pos (top_k (k self) pd_rank) →
     NDCG.compute self gt_pos pd_rank
     = Ok (NpFloat.div
             (Fin (dcg_formula gt_pos (top_k (k self) pd_rank)))
             (Fin (dcg_formula gt_pos (top_k (k self) ideal))))).
Proof.
  intros ideal. split; [apply top_k_pos|]. split; [apply top_k_nonpos|].
  split.
  { intros Hfit Hin. rewrite dcg_score_in_range by done.
    by rewrite discounted_gains_formula. }
  split; [apply dcg_score_out_of_range|].
  split; [apply ideal_ranking_argsort|].
  split.
  { intros l Hl. apply dcg_score_ideal_any; [done | apply ideal_ranking_argsort]. }
  intros Hfit Hin. rewrite NDCG_compute_in_range by done.
  by rewrite !discounted_gains_formula.
Qed.

Lemma NDCG_dcg_score_compute_spec_witness :
  NDCG.dcg_score [1; 0; 1] [2; 1; 0] 2
  = Ok (dcg_formula [1; 0; 1] (top_k 2 [2; 1; 0])) ∧
  NDCG.compute (NDCG.init 2) [1; 0; 1] [2; 1; 0]
  = Ok (NpFloat.div
          (Fin (dcg_formula [1; 0; 1] (top_k 2 [2; 1; 0])))
          (Fin (dcg_formula [1; 0; 1]
                  (top_k 2 (reverse (argsort [1; 0; 1])))))).
Proof.
  pose proof (NDCG_dcg_score_compute_spec (NDCG.init 2) [1; 0; 1] [2; 1; 0] 2)
    as (_ & _ & Hd & _ & _ & _ & Hc).
  split.
  - apply Hd; apply (bool_decide_unpack _); vm_compute; exact I.
  - apply Hc; apply (bool_decide_unpack _); vm_compute; exact I.
Defined.

(** C2 (as stated) fails for a relevance of 64 or more: the power
    [2 ** 64] wraps to 0 on 64-bit integers, the gain is -1, and
    [dcg_score] returns -1 for the one-item rank where the formula gives
    [2 ^ 64 - 1]. *)
Lemma NDCG_dcg_score_wraps :
  in_range [64] (top_k (-1) [0]) ∧
  NDCG.dcg_score [64] [0] (-1) = Ok (-1)%R ∧
  dcg_formula [64] (top_k (-1) [0]) = (2 ^ 64 - 1)%R ∧
  ((-1)%R ≠ (2 ^ 64 - 1)%R).
Proof.
  split; [apply (bool_decide_unpack _); vm_compute; exact I|].
  split; [|split].
  - unfold NDCG.dcg_score.
    rewrite np_take_in_range
      by (apply (bool_decide_unpack _); vm_compute; exact I).
    unfold mbind, pyresult_bind. f_equal.
    change (key [64] <$> top_k (-1) [0]) with [64].
    cbn [fmap list_fmap length NDCG.discounts arange seq zip_with sum_R foldr].
    rewrite (gain_wraps 64) by lia.
    simpl (INR 0). replace (0 + 2)%R with 2%R by lra.
    rewrite log2_2. unfold Rdiv.
    by rewrite Rinv_1, Rmult_1_r, Rplus_0_r.
  - unfold dcg_formula. change (top_k (-1) [0]) with [0].
    cbn [length sum_upto lookup list_lookup default key].
    simpl (INR 0). replace (0 + 2)%R with 2%R by lra.
    rewrite log2_2. unfold Rdiv.
    by rewrite Rinv_1, Rmult_1_r, Rplus_0_l.
  - assert (2 ^ 1 <= 2 ^ 64)%R by (apply Rle_pow; [lra | lia]). lra.
Qed.

(** ** Truncation depth and the ideal DCG *)

Lemma top_k_ge (k : Z) (l : list nat) :
  (Z.of_nat (length l) ≤ k)%Z → top_k k l = l.
Proof.
  intros Hk. unfold top_k. case_bool_decide; [|done]. apply take_ge. lia.
Qed.

Lemma length_ideal (gt_pos : list nat) :
  length (reverse (argsort gt_pos)) = length gt_pos.
Proof.
  rewrite length_reverse, (Permutation_length (argsort_Permutation gt_pos)).
  apply length_seq.
Qed.

(** A depth that truncates neither the rank nor the ideal ranking runs
    the computation of the default depth. *)
Lemma NDCG_compute_whole self (gt_pos pd_rank : list nat) :
  top_k (k self) pd_rank = pd_rank →
  top_k (k self) (reverse (argsort gt_pos)) = reverse (argsort gt_pos) →
  NDCG.compute self gt_pos pd_rank
  = NDCG.compute (NDCG.init (-1)) gt_pos pd_rank.
Proof.
  intros Hr Hi. unfold NDCG.compute, NDCG.dcg_score.
  cbn [k NDCG.init RankingMetric_init].
  by rewrite Hr, Hi, !(top_k_nonpos (-1)) by lia.
Qed.

(** C7 (as amended). The NDCG score no longer depends on the truncation
    depth once the depth is at least the length of the rank and at least
    the length of the relevance vector, which is the length of the ideal
    ranking: such a depth truncates neither of the two rankings, so the
    computation is the one of the default depth.  Any two such depths
    give the untruncated score. *)
Theorem NDCG_truncation_invariant (gt_pos pd_rank : list nat) (k1 k2 : Z) :
  (Z.of_nat (length pd_rank) ≤ k1)%Z →
  (Z.of_nat (length gt_pos) ≤ k1)%Z →
  (Z.of_nat (length pd_rank) ≤ k2)%Z →
  (Z.of_nat (length gt_pos) ≤ k2)%Z →
  let ideal := reverse (argsort gt_pos) in
  (top_k k1 pd_rank = pd_rank ∧ top_k k1 ideal = ideal) ∧
  (top_k k2 pd_rank = pd_rank ∧ top_k k2 ideal = ideal) ∧
  NDCG.compute (NDCG.init k1) gt_pos pd_rank
  = NDCG.compute (NDCG.init k2) gt_pos pd_rank ∧
  NDCG.compute (NDCG.init k1) gt_pos pd_rank
  = NDCG.compute (NDCG.init (-1)) gt_pos pd_rank.
Proof.
  intros H1 P1 H2 P2 ideal.
  assert (top_k k1 pd_rank = pd_rank ∧ top_k k1 ideal = ideal) as [R1 I1]
    by (split; apply top_k_ge; [done | unfold ideal; by rewrite length_ideal]).
  assert (top_k k2 pd_rank = pd_rank ∧ top_k k2 ideal = ideal) as [R2 I2]
    by (split; apply top_k_ge; [done | unfold ideal; by rewrite length_ideal]).
  split; [done|]. split; [done|].
  rewrite (NDCG_compute_whole (NDCG.init k1)), (NDCG_compute_whole (NDCG.init k2))
    by done.
  done.
Qed.

Lemma NDCG_truncation_invariant_witness :
  NDCG.compute (NDCG.init 3) [1; 0; 1] [2; 0]
  = NDCG.compute (NDCG.init 5) [1; 0; 1] [2; 0] ∧
  NDCG.compute (NDCG.init 3) [1; 0; 1] [2; 0]
  = NDCG.compute (NDCG.init (-1)) [1; 0; 1] [2; 0].
Proof.
  apply (NDCG_truncation_invariant [1; 0; 1] [2; 0] 3 5);
    vm_compute; discriminate.
Defined.

(** C7 (as stated) fails: with two positive items and a rank of length
    one, depth 1 truncates the ideal ranking to one item and depth 2
    keeps both, so the two scores differ although both depths are at
    least the length of the rank. *)
Lemma NDCG_truncation_not_invariant :
  (Z.of_nat (length [0]) ≤ 1)%Z ∧ (Z.of_nat (length [0]) ≤ 2)%Z ∧
  ∃ v1 v2 : R,
    NDCG.compute (NDCG.init 1) [1; 1] [0] = Ok (Fin v1) ∧
    NDCG.compute (NDCG.init 2) [1; 1] [0] = Ok (Fin v2) ∧
    (v2 < v1)%R.
Proof.
  split; [simpl; lia|]. split; [simpl; lia|].
  pose proof (discount_pos 0) as H0. pose proof (discount_pos 1) as H1.
  set (x := (INR 1 / log2 (INR 0 + 2))%R).
  set (y := (INR 1 / log2 (INR 1 + 2))%R).
  assert (0 < x)%R as Hx by (apply Rdiv_lt_0_compat; [simpl; lra | done]).
  assert (0 < y)%R as Hy by (apply Rdiv_lt_0_compat; [simpl; lra | done]).
  assert (NDCG.compute (NDCG.init 1) [1; 1] [0]
          = Ok (NpFloat.div (Fin (0 + x)) (Fin (0 + x)))) as E1.
  { rewrite NDCG_compute_in_range
      by (apply (bool_decide_unpack _); vm_compute; exact I).
    reflexivity. }
  assert (NDCG.compute (NDCG.init 2) [1; 1] [0]
          = Ok (NpFloat.div (Fin (0 + x)) (Fin (0 + x + y)))) as E2.
  { rewrite NDCG_compute_in_range
      by (apply (bool_decide_unpack _); vm_compute; exact I).
    reflexivity. }
  exists ((0 + x) / (0 + x))%R, ((0 + x) / (0 + x + y))%R.
  rewrite E1, E2, !div_Fin_nonzero by lra. split; [done|]. split; [done|].
  clearbody x y.
  assert ((0 + x) / (0 + x) = 1)%R as -> by (field; lra).
  apply (Rmult_lt_reg_r (0 + x + y)); [lra|].
  unfold Rdiv. rewrite Rmult_assoc, Rinv_l by lra. lra.
Qed.

(** ** Ideal orderings *)


Lemma StronglySorted_lookup_lt {A} (R : relation A) (l : list A) i j x y :
  StronglySorted R l → l !! i = Some x → l !! j = Some y → i < j → R x y.
Proof.
  intros Hs. revert i j. induction Hs as [|a l _ IH Ha]; intros i j Hi Hj Hij;
    [done|].
  destruct j as [|j]; [lia|]. simpl in Hj. destruct i as [|i]; simpl in Hi.
  - injection Hi as ->. rewrite Forall_forall in Ha. apply Ha.
    by eapply list_elem_of_lookup_2.
  - apply (IH i j); [done | done | lia].
Qed.



Lemma discounted_head_pos (g : list nat) (h : nat) :
  g !! 0 = Some h → 0 < h → (0 < discounted g)%R.
Proof.
  intros Hg Hh. unfold discounted.
  set (f := fun i => (INR (default 0%nat (g !! i)) / log2 (INR i + 2))%R).
  assert (sum_upto 1 f <= sum_upto (length g) f)%R as Hle.
  { apply sum_upto_mono; [apply lookup_lt_Some in Hg; lia|].
    intros i _. unfold f. apply Rmult_le_pos; [apply pos_INR|].
    left. apply Rinv_0_lt_compat, discount_pos. }
  assert (0 < sum_upto 1 f)%R; [|lra].
  simpl. unfold f. rewrite Hg. simpl (default _ _).
  assert (0 < INR h / log2 (INR 0 + 2))%R; [|lra].
  apply Rdiv_lt_0_compat; [by apply lt_0_INR | apply discount_pos].
Qed.

Lemma top_k_head (k : Z) (l : list nat) : top_k k l !! 0 = l !! 0.
Proof.
  unfold top_k. case_bool_decide; [|done]. apply lookup_take_lt. lia.
Qed.

(** With a positive item the ideal DCG is positive at every depth. *)
Lemma idcg_pos (gt_pos l : list nat) (k : Z) :
  (∃ i, positive gt_pos i) → ideal_ranking gt_pos l →
  (0 < discounted (gains gt_pos (top_k k l)))%R.
Proof.
  intros (p & Hp) Hl. pose proof Hl as [Hperm Hs].
  assert (p ∈ l) as (j & Hj)%list_elem_of_lookup.
  { rewrite Hperm, elem_of_seq. apply positive_lt in Hp. lia. }
  assert (is_Some (l !! 0)) as [x Hx].
  { apply lookup_lt_is_Some. apply lookup_lt_Some in Hj. lia. }
  assert (0 < key gt_pos x) as Hkx.
  { apply positive_key in Hp. destruct j as [|j]; [by simplify_eq|].
    pose proof (StronglySorted_lookup_lt _ _ 0 (S j) x p Hs Hx Hj ltac:(lia)).
    simpl in *. lia. }
  apply (discounted_head_pos _ (pow_gain (key gt_pos x))).
  - rewrite gains_top_k, top_k_head. unfold gains.
    by rewrite !list_lookup_fmap, Hx.
  - by apply gain_pos.
Qed.






(** ** Prefix sums and the discounted sum *)



Lemma discount_weight_nonneg (i : nat) : (0 <= / log2 (INR i + 2))%R.
Proof. left. apply Rinv_0_lt_compat, discount_pos. Qed.




(** ** AUC *)

Lemma filter_ext_in {A} (P Q : A → Prop)
    `{!∀ x, Decision (P x)} `{!∀ x, Decision (Q x)} (l : list A) :
  (∀ x, x ∈ l → P x ↔ Q x) → filter P l = filter Q l.
Proof.
  induction l as [|x l IH]; intros Hext; [done|].
  rewrite !filter_cons.
  rewrite IH by (intros y Hy; apply Hext; by apply elem_of_cons; right).
  pose proof (Hext x (list_elem_of_here _ _)).
  repeat case_decide; tauto || done.
Qed.

Lemma filter_none {A} (P : A → Prop) `{!∀ x, Decision (P x)} (l : list A) :
  (∀ x, x ∈ l → ¬ P x) → filter P l = [].
Proof.
  induction l as [|x l IH]; intros Hno; [done|].
  rewrite filter_cons, decide_False by apply Hno, list_elem_of_here.
  apply IH. intros y Hy. apply Hno. by apply elem_of_cons; right.
Qed.

Lemma compress_from (s : nat) (a : list R) (mask : list nat) :
  length mask = length a →
  compress a (astype_bool mask)
  = (fun i => score a (i - s))
      <$> filter (fun i => key mask (i - s) ≠ 0) (seq s (length mask)).
Proof.
  revert s mask. induction a as [|x a IH]; intros s [|r mask] Hlen;
    try done.
  injection Hlen as Hlen. unfold astype_bool. rewrite fmap_cons.
  cbn [compress length seq]. fold (astype_bool mask).
  rewrite filter_cons, (IH (S s) mask Hlen).
  assert (filter (fun i => key (r :: mask) (i - s) ≠ 0) (seq (S s) (length mask))
          = filter (fun i => key mask (i - S s) ≠ 0) (seq (S s) (length mask)))
    as ->.
  { apply filter_ext_in. intros i Hi%elem_of_seq.
    replace (i - s) with (S (i - S s)) by lia. done. }
  assert ((fun i => score (x :: a) (i - s))
            <$> filter (fun i => key mask (i - S s) ≠ 0) (seq (S s) (length mask))
          = (fun i => score a (i - S s))
              <$> filter (fun i => key mask (i - S s) ≠ 0)
                    (seq (S s) (length mask))) as Htl.
  { apply list_fmap_ext. intros j i Hi%list_elem_of_lookup_2.
    apply list_elem_of_filter in Hi as [_ Hi%elem_of_seq].
    replace (i - s) with (S (i - S s)) by lia. done. }
  replace (s - s) with 0 by lia. change (key (r :: mask) 0) with r.
  case_bool_decide; case_decide; try done.
  rewrite fmap_cons, Htl. replace (s - s) with 0 by lia. done.
Qed.

Lemma compress_marked (a : list R) (mask : list nat) :
  length mask = length a →
  compress a (astype_bool mask) = score a <$> marked mask.
Proof.
  intros Hlen. rewrite (compress_from 0) by done. unfold marked.
  rewrite (filter_ext_in (fun i => key mask (i - 0) ≠ 0)
                         (fun i => key mask i ≠ 0))
    by (intros i _; by rewrite Nat.sub_0_r).
  apply list_fmap_ext. intros j i _. by rewrite Nat.sub_0_r.
Qed.

Lemma elem_of_marked (mask : list nat) (i : nat) :
  i ∈ marked mask ↔ positive mask i.
Proof.
  unfold marked. rewrite list_elem_of_filter, elem_of_seq, positive_key.
  split; [lia|]. intros Hk. split; [lia|].
  destruct (decide (i < length mask)) as [|Hge]; [lia|].
  unfold key in Hk. rewrite lookup_ge_None_2 in Hk by lia. simpl in Hk. lia.
Qed.

Lemma count_below_scores (a : list R) (items : list nat) (x : R) :
  count_below x (score a <$> items)
  = length (filter (fun j => (score a j < x)%R) items).
Proof.
  unfold count_below. induction items as [|j items IH]; [done|].
  rewrite fmap_cons, !filter_cons. repeat case_decide; simpl; by rewrite ?IH.
Qed.

Lemma NpFloat_sum_Fin (rs : list R) :
  NpFloat.sum (Fin <$> rs) = Fin (sum_R rs).
Proof.
  unfold NpFloat.sum.
  assert (∀ acc, foldl NpFloat.add (Fin acc) (Fin <$> rs)
                 = Fin (acc + sum_R rs)) as H.
  { induction rs as [|r rs IH]; intros acc; simpl.
    - f_equal. lra.
    - rewrite IH. f_equal. lra. }
  rewrite H. f_equal. lra.
Qed.

Lemma AUC_compute_formula self (pd_scores : list R) (gt_pos gt_neg : list nat) :
  length gt_pos = length pd_scores → length gt_neg = length pd_scores →
  marked gt_pos ≠ [] → marked gt_neg ≠ [] →
  AUC.compute self pd_scores gt_pos gt_neg
  = Ok (Fin (auc_formula pd_scores gt_pos gt_neg)).
Proof.
  intros Hp Hn Hpne Hnne. unfold AUC.compute, mask_select.
  rewrite !bool_decide_eq_true_2
    by (unfold astype_bool; by rewrite length_fmap).
  unfold mbind, pyresult_bind. rewrite !compress_marked by done.
  assert (0 < length (marked gt_pos)) as HP
    by (destruct (marked gt_pos); [done | simpl; lia]).
  assert (0 < length (marked gt_neg)) as HN
    by (destruct (marked gt_neg); [done | simpl; lia]).
  rewrite <- list_fmap_compose.
  rewrite (list_fmap_ext _ (Fin ∘ auc_fraction pd_scores gt_neg)).
  - rewrite list_fmap_compose, NpFloat_sum_Fin, !length_fmap.
    unfold NpFloat.of_nat. rewrite div_Fin_nonzero; [done|].
    apply lt_INR in HP. simpl in HP. lra.
  - intros j i _. unfold compose. cbv beta.
    rewrite length_fmap, div_of_nat_pos by done.
    by rewrite count_below_scores.
Qed.

Lemma sum_R_fmap_bounds {A} (f : A → R) (l : list A) :
  (∀ x, x ∈ l → (0 <= f x <= 1)%R) →
  (0 <= sum_R (f <$> l) <= INR (length l))%R.
Proof.
  induction l as [|x l IH]; intros Hb; [simpl; lra|].
  rewrite fmap_cons. cbn [sum_R foldr length]. rewrite S_INR.
  pose proof (Hb x (list_elem_of_here _ _)).
  assert (0 <= sum_R (f <$> l) <= INR (length l))%R
    by (apply IH; intros y Hy; apply Hb; by apply elem_of_cons; right).
  unfold sum_R in *. lra.
Qed.

Lemma auc_fraction_unit (pd_scores : list R) (gt_neg : list nat) (i : nat) :
  marked gt_neg ≠ [] → (0 <= auc_fraction pd_scores gt_neg i <= 1)%R.
Proof.
  intros Hne. unfold auc_fraction. apply ratio_le_1.
  - destruct (marked gt_neg); [done | simpl; lia].
  - apply length_filter.
Qed.


Lemma sum_R_fmap_zero {A} (f : A → R) (l : list A) :
  (∀ x, x ∈ l → f x = 0%R) → sum_R (f <$> l) = 0%R.
Proof.
  induction l as [|x l IH]; intros Hz; [done|].
  rewrite fmap_cons. cbn [sum_R foldr].
  rewrite Hz by apply list_elem_of_here.
  fold (sum_R (f <$> l)).
  rewrite IH; [lra|]. intros y Hy. apply Hz. by apply elem_of_cons; right.
Qed.

Lemma auc_formula_no_win (pd_scores : list R) (gt_pos gt_neg : list nat) :
  (∀ i j, i ∈ marked gt_pos → j ∈ marked gt_neg →
          (score pd_scores i <= score pd_scores j)%R) →
  auc_formula pd_scores gt_pos gt_neg = 0%R.
Proof.
  intros Hle. unfold auc_formula. rewrite sum_R_fmap_zero; [unfold Rdiv; lra|].
  intros i Hi. unfold auc_fraction, beaten.
  rewrite filter_none; [simpl; unfold Rdiv; lra|].
  intros j Hj Hlt. specialize (Hle i j Hi Hj). lra.
Qed.

(** C3. With masks as long as the score array and at least one positive
    and one negative item, [AUC.compute] returns the mean over the
    positive items of the fraction of negative items whose score lies
    strictly below the score of the positive item.  A negative item with
    an equal score is never counted; when no positive score strictly
    exceeds a negative one the result is 0. *)
Theorem AUC_compute_spec (self : RankingMetric) (pd_scores : list R)
    (gt_pos gt_neg : list nat) :
  length gt_pos = length pd_scores → length gt_neg = length pd_scores →
  (∃ i, positive gt_pos i) → (∃ j, positive gt_neg j) →
  AUC.compute self pd_scores gt_pos gt_neg
    = Ok (Fin (auc_formula pd_scores gt_pos gt_neg)) ∧
  (∀ i, i ∈ marked gt_pos ↔ positive gt_pos i) ∧
  (∀ i j, j ∈ beaten pd_scores (marked gt_neg) i ↔
          positive gt_neg j ∧ (score pd_scores j < score pd_scores i)%R) ∧
  (∀ i j, score pd_scores j = score pd_scores i →
          j ∉ beaten pd_scores (marked gt_neg) i) ∧
  ((∀ i j, positive gt_pos i → positive gt_neg j →
           (score pd_scores i <= score pd_scores j)%R) →
   AUC.compute self pd_scores gt_pos gt_neg = Ok (Fin 0)).
Proof.
  intros Hp Hn (i0 & Hi0%elem_of_marked) (j0 & Hj0%elem_of_marked).
  assert (marked gt_pos ≠ []) as Hpne by (intros E; rewrite E in Hi0; inversion Hi0).
  assert (marked gt_neg ≠ []) as Hnne by (intros E; rewrite E in Hj0; inversion Hj0).
  pose proof (AUC_compute_formula self _ _ _ Hp Hn Hpne Hnne) as Hc.
  split; [done|]. split; [apply elem_of_marked|]. split; [|split].
  - intros i j. unfold beaten. rewrite list_elem_of_filter, elem_of_marked. tauto.
  - intros i j Heq [Hlt _]%list_elem_of_filter. lra.
  - intros Hle. rewrite Hc, auc_formula_no_win; [done|].
    intros i j Hi%elem_of_marked Hj%elem_of_marked. by apply Hle.
Qed.

Lemma AUC_compute_spec_witness :
  AUC.compute AUC.init [1; 0]%R [1; 0] [0; 1]
  = Ok (Fin (auc_formula [1; 0]%R [1; 0] [0; 1])).
Proof.
  apply (AUC_compute_spec AUC.init [1; 0]%R [1; 0] [0; 1]).
  - reflexivity.
  - reflexivity.
  - exists 0, 1. split; [reflexivity | lia].
  - exists 1, 1. split; [reflexivity | lia].
Defined.

(** ** The range of the scores *)



Lemma top_k_NoDup (k : Z) (l : list nat) : NoDup l → NoDup (top_k k l).
Proof.
  intros Hnd. unfold top_k. case_bool_decide; [|done].
  eapply sublist_NoDup; [exact Hnd | apply sublist_take].
Qed.













(** * Further properties of the metrics *)

(** ** The measures at K: depth, errors and order *)

Lemma in_range_dec_iff (gt_pos l l' : list nat) :
  (∀ i, i ∈ l ↔ i ∈ l') → in_range gt_pos l ↔ in_range gt_pos l'.
Proof.
  intros Hmem. unfold in_range. rewrite !Forall_forall.
  split; intros H i Hi; apply H; by apply Hmem.
Qed.

Lemma indicator_same_members (n : nat) (l l' : list nat) :
  (∀ i, i ∈ l ↔ i ∈ l') → indicator n l = indicator n l'.
Proof.
  intros Hmem. unfold indicator. apply list_fmap_ext. intros _ i _.
  specialize (Hmem i). repeat case_bool_decide; tauto || done.
Qed.

Lemma MeasureAtK_compute_same_top self self' (gt_pos l l' : list nat) :
  top_k (k self) l = top_k (k self') l' →
  MeasureAtK.compute self gt_pos l = MeasureAtK.compute self' gt_pos l'.
Proof. intros H. unfold MeasureAtK.compute. by rewrite H. Qed.

Lemma measures_same_triple self self' (gt_pos l l' : list nat) :
  MeasureAtK.compute self gt_pos l = MeasureAtK.compute self' gt_pos l' →
  Precision.compute self gt_pos l = Precision.compute self' gt_pos l' ∧
  Recall.compute self gt_pos l = Recall.compute self' gt_pos l' ∧
  FMeasure.compute self gt_pos l = FMeasure.compute self' gt_pos l'.
Proof.
  intros H. unfold Precision.compute, Recall.compute, FMeasure.compute.
  by rewrite H.
Qed.

(** X1. [if self.k > 0]: a depth that is zero or negative truncates
    nothing, and neither does a depth of at least the length of the
    rank.  The counts, and with them precision, recall and F-measure,
    are the same for all such depths; unlike NDCG they need no further
    condition. *)
Theorem MeasureAtK_deep_or_nonpositive_k (self1 self2 : RankingMetric)
    (gt_pos pd_rank : list nat) :
  ((k self1 ≤ 0)%Z ∨ (Z.of_nat (length pd_rank) ≤ k self1)%Z) →
  ((k self2 ≤ 0)%Z ∨ (Z.of_nat (length pd_rank) ≤ k self2)%Z) →
  MeasureAtK.compute self1 gt_pos pd_rank
    = MeasureAtK.compute self2 gt_pos pd_rank ∧
  Precision.compute self1 gt_pos pd_rank
    = Precision.compute self2 gt_pos pd_rank ∧
  Recall.compute self1 gt_pos pd_rank
    = Recall.compute self2 gt_pos pd_rank ∧
  FMeasure.compute self1 gt_pos pd_rank
    = FMeasure.compute self2 gt_pos pd_rank.
Proof.
  intros H1 H2.
  assert (top_k (k self1) pd_rank = top_k (k self2) pd_rank) as Htop.
  { assert (top_k (k self1) pd_rank = pd_rank) as ->
      by (destruct H1; [by apply top_k_nonpos | by apply top_k_ge]).
    destruct H2; [by rewrite top_k_nonpos | by rewrite top_k_ge]. }
  pose proof (MeasureAtK_compute_same_top _ _ gt_pos _ _ Htop) as Hc.
  split; [done | by apply measures_same_triple].
Qed.

Lemma MeasureAtK_deep_or_nonpositive_k_witness :
  Precision.compute (Precision.init 0) [1; 0; 1] [2; 1]
    = Precision.compute (Precision.init 7) [1; 0; 1] [2; 1].
Proof.
  apply (MeasureAtK_deep_or_nonpositive_k
           (Precision.init 0) (Precision.init 7) [1; 0; 1] [2; 1]).
  - left. simpl. lia.
  - right. simpl. lia.
Defined.

Lemma bind_triple_Raise (f : nat * nat * nat → pyresult npfloat)
    (m : pyresult (nat * nat * nat)) (e : exn) :
  (∀ t, ∃ x, f t = Ok x) → m ≫= f = Raise e ↔ m = Raise e.
Proof.
  intros Hf. destruct m as [t|e']; simpl.
  - destruct (Hf t) as [x ->]. split; intros [=].
  - split; by intros [= ->].
Qed.

Lemma FMeasure_body_Ok (t : nat * nat * nat) :
  ∃ x,
    (let '(tp, tp_fn, tp_fp) := t in
     let prec := NpFloat.div (NpFloat.of_nat tp) (NpFloat.of_nat tp_fp) in
     let rec := NpFloat.div (NpFloat.of_nat tp) (NpFloat.of_nat tp_fn) in
     if NpFloat.gt (NpFloat.add prec rec) (Fin 0) then
       Ok (NpFloat.div (NpFloat.mul (Fin 2) (NpFloat.mul prec rec))
                       (NpFloat.add prec rec))
     else Ok (Fin 0)) = Ok x.
Proof.
  destruct t as [[tp tp_fn] tp_fp]. cbv zeta.
  destruct (NpFloat.gt _ _); eauto.
Qed.

(** X2. The measures at K fail only on an item of the truncated rank that
    lies outside the relevance vector, and then with [IndexError]:
    [MeasureAtK], [Precision], [Recall] and [FMeasure] raise exactly in
    that case and return otherwise, whatever the counts are.  With a
    depth [k > 0] the items behind the first [k] are never looked at,
    so they cannot make the computation fail. *)
Theorem MeasureAtK_raises_iff (self : RankingMetric)
    (gt_pos pd_rank : list nat) :
  let top := top_k (k self) pd_rank in
  (∀ e, MeasureAtK.compute self gt_pos pd_rank = Raise e ↔
        e = IndexError ∧ ¬ in_range gt_pos top) ∧
  (∀ e, Precision.compute self gt_pos pd_rank = Raise e ↔
        e = IndexError ∧ ¬ in_range gt_pos top) ∧
  (∀ e, Recall.compute self gt_pos pd_rank = Raise e ↔
        e = IndexError ∧ ¬ in_range gt_pos top) ∧
  (∀ e, FMeasure.compute self gt_pos pd_rank = Raise e ↔
        e = IndexError ∧ ¬ in_range gt_pos top) ∧
  (∀ front behind, (0 < k self)%Z → length front = Z.to_nat (k self) →
     MeasureAtK.compute self gt_pos (front ++ behind)
     = MeasureAtK.compute self gt_pos front).
Proof.
  intros top.
  assert (∀ e, MeasureAtK.compute self gt_pos pd_rank = Raise e ↔
               e = IndexError ∧ ¬ in_range gt_pos top) as Hm.
  { intros e. destruct (decide (in_range gt_pos top)) as [Hin|Hout].
    - rewrite MeasureAtK_compute_Ok by done. split; [done | tauto].
    - rewrite MeasureAtK_compute_Raise by done.
      split; [by intros [= <-] | by intros [-> _]]. }
  split; [exact Hm|].
  split; [|split; [|split]].
  - intros e. rewrite <- Hm. unfold Precision.compute.
    apply bind_triple_Raise. intros [[tp tp_fn] tp_fp]. eauto.
  - intros e. rewrite <- Hm. unfold Recall.compute.
    apply bind_triple_Raise. intros [[tp tp_fn] tp_fp]. eauto.
  - intros e. rewrite <- Hm. unfold FMeasure.compute.
    apply bind_triple_Raise. apply FMeasure_body_Ok.
  - intros front behind Hk Hlen. apply MeasureAtK_compute_same_top.
    rewrite !(top_k_pos _ _ Hk).
    rewrite take_app_length' by done. rewrite take_ge by lia. done.
Qed.

Lemma MeasureAtK_raises_iff_witness :
  MeasureAtK.compute (Precision.init 1) [1; 0] ([0] ++ [5; 9])
  = MeasureAtK.compute (Precision.init 1) [1; 0] [0].
Proof.
  pose proof (MeasureAtK_raises_iff (Precision.init 1) [1; 0] [0])
    as (_ & _ & _ & _ & H).
  apply (H [0] [5; 9]); reflexivity.
Defined.

(** X3. The counts depend on the truncated rank only through the set of
    its items: two ranks whose truncations hold the same items, in any
    order and with any repetition, give the same counts and the same
    precision, recall and F-measure (or raise alike). *)
Theorem MeasureAtK_order_insensitive (self : RankingMetric)
    (gt_pos pd_rank pd_rank' : list nat) :
  (∀ i, i ∈ top_k (k self) pd_rank ↔ i ∈ top_k (k self) pd_rank') →
  MeasureAtK.compute self gt_pos pd_rank
    = MeasureAtK.compute self gt_pos pd_rank' ∧
  Precision.compute self gt_pos pd_rank
    = Precision.compute self gt_pos pd_rank' ∧
  Recall.compute self gt_pos pd_rank
    = Recall.compute self gt_pos pd_rank' ∧
  FMeasure.compute self gt_pos pd_rank
    = FMeasure.compute self gt_pos pd_rank'.
Proof.
  intros Hmem.
  assert (MeasureAtK.compute self gt_pos pd_rank
          = MeasureAtK.compute self gt_pos pd_rank') as Hc.
  { pose proof (in_range_dec_iff gt_pos _ _ Hmem) as Hr.
    destruct (decide (in_range gt_pos (top_k (k self) pd_rank))) as [Hin|Hout].
    - rewrite !MeasureAtK_compute_Ok by tauto.
      by rewrite (indicator_same_members _ _ _ Hmem).
    - rewrite !MeasureAtK_compute_Raise by tauto. done. }
  split; [done | by apply measures_same_triple].
Qed.

Lemma MeasureAtK_order_insensitive_witness :
  Precision.compute (Precision.init 2) [1; 0; 1] [2; 0; 1]
  = Precision.compute (Precision.init 2) [1; 0; 1] [0; 2; 2].
Proof.
  apply (MeasureAtK_order_insensitive (Precision.init 2)
           [1; 0; 1] [2; 0; 1] [0; 2; 2]).
  intros i. change (i ∈ [2; 0] ↔ i ∈ [0; 2]).
  rewrite !elem_of_cons, !elem_of_nil. tauto.
Defined.

(** ** The measures at K: growth with the depth and degenerate inputs *)










(** ** NDCG: errors and degenerate inputs *)

(** X7. [NDCG.compute] fails only on an item of the truncated rank that
    lies outside the relevance vector, and then with [IndexError]; the
    ideal ranking it builds itself is always inside, so with a rank in
    range a value is returned (possibly a not-a-number). *)
Theorem NDCG_raises_iff (self : RankingMetric) (gt_pos pd_rank : list nat) :
  let top := top_k (k self) pd_rank in
  (∀ e, NDCG.compute self gt_pos pd_rank = Raise e ↔
        e = IndexError ∧ ¬ in_range gt_pos top) ∧
  (in_range gt_pos top → ∃ x, NDCG.compute self gt_pos pd_rank = Ok x) ∧
  (∃ idcg, NDCG.dcg_score gt_pos (reverse (argsort gt_pos)) (k self)
           = Ok idcg).
Proof.
  intros top. split; [|split].
  - intros e. destruct (decide (in_range gt_pos top)) as [Hin|Hout].
    + destruct (NDCG_compute_returns self _ _ Hin) as [x ->].
      split; [done | tauto].
    + rewrite NDCG_compute_out_of_range by done.
      split; [by intros [= <-] | by intros [-> _]].
  - apply NDCG_compute_returns.
  - apply dcg_score_returns.
    apply in_range_top_k, ideal_ranking_in_range, ideal_ranking_argsort.
Qed.

Lemma NDCG_raises_iff_witness :
  ∃ x, NDCG.compute (NDCG.init 1) [1; 0] [0; 9] = Ok x.
Proof.
  pose proof (NDCG_raises_iff (NDCG.init 1) [1; 0] [0; 9]) as (_ & H & _).
  apply H. apply (bool_decide_unpack _). vm_compute. exact I.
Defined.

Lemma discounted_all_zero (g : list nat) :
  (∀ i, default 0 (g !! i) = 0) → discounted g = 0%R.
Proof.
  intros Hz. unfold discounted.
  rewrite (sum_upto_tail_zero 0); [done | lia |].
  intros i _. rewrite Hz. simpl. unfold Rdiv. lra.
Qed.

Lemma sum_upto_pos (n i : nat) (f : nat → R) :
  i < n → (∀ j, j < n → (0 <= f j)%R) → (0 < f i)%R → (0 < sum_upto n f)%R.
Proof.
  intros Hi Hnn Hpos.
  assert (sum_upto (S i) f <= sum_upto n f)%R as Hle
    by (apply sum_upto_mono; [lia | intros j Hj; apply Hnn; lia]).
  assert (0 <= sum_upto i f)%R
    by (apply sum_upto_nonneg; intros j Hj; apply Hnn; lia).
  simpl in Hle. lra.
Qed.

Lemma discounted_pos (g : list nat) (i x : nat) :
  g !! i = Some x → 0 < x → (0 < discounted g)%R.
Proof.
  intros Hg Hx. unfold discounted. apply (sum_upto_pos _ i).
  - by eapply lookup_lt_Some.
  - intros j _. apply Rmult_le_pos; [apply pos_INR | apply discount_weight_nonneg].
  - rewrite Hg. simpl. apply Rdiv_lt_0_compat; [by apply lt_0_INR | apply discount_pos].
Qed.

Lemma gains_no_positive (gt_pos l : list nat) (i : nat) :
  (∀ x, x ∈ l → ¬ positive gt_pos x) → default 0 (gains gt_pos l !! i) = 0.
Proof.
  intros Hno. unfold gains. rewrite !list_lookup_fmap.
  destruct (l !! i) as [x|] eqn:E; [|done]. simpl.
  assert (key gt_pos x = 0) as ->; [|done].
  pose proof (Hno x (list_elem_of_lookup_2 _ _ _ E)) as Hx.
  rewrite positive_key in Hx. lia.
Qed.

(** X8. Degenerate inputs of NDCG, for a rank in range.  Without a
    positive item both DCGs are 0 and the score is a not-a-number.  With
    a positive item and relevances of at most 63 the score is 0 exactly
    when no item of the truncated rank is positive, and positive
    otherwise. *)
Theorem NDCG_zero_and_nan (self : RankingMetric) (gt_pos pd_rank : list nat) :
  let top := top_k (k self) pd_rank in
  in_range gt_pos top →
  ((∀ i, ¬ positive gt_pos i) →
     NDCG.compute self gt_pos pd_rank = Ok NaN) ∧
  (fits_int64 gt_pos →
   (∃ i, positive gt_pos i) → (∀ i, i ∈ top → ¬ positive gt_pos i) →
     NDCG.compute self gt_pos pd_rank = Ok (Fin 0)) ∧
  (fits_int64 gt_pos →
   (∃ i, i ∈ top ∧ positive gt_pos i) →
     ∃ v, NDCG.compute self gt_pos pd_rank = Ok (Fin v) ∧ (0 < v)%R).
Proof.
  intros top Hin.
  pose proof (ideal_ranking_argsort gt_pos) as Hl.
  split; [|split].
  - intros Hno.
    rewrite NDCG_compute_in_range by (done || by apply no_positive_fits).
    fold top.
    rewrite !discounted_all_zero
      by (intros i; apply gains_no_positive; intros x _; apply Hno).
    simpl. destruct (Req_dec_T 0 0) as [_|Hne]; [done | lra].
  - intros Hfit Hpos Hno. rewrite NDCG_compute_in_range by done. fold top.
    pose proof (idcg_pos gt_pos _ (k self) Hpos Hl) as Hi.
    rewrite (discounted_all_zero (gains gt_pos top))
      by (intros i; by apply gains_no_positive).
    rewrite div_Fin_nonzero by lra. do 2 f_equal. unfold Rdiv. lra.
  - intros Hfit (i & Hi & Hp). rewrite NDCG_compute_in_range by done. fold top.
    pose proof (idcg_pos gt_pos _ (k self) (ex_intro _ i Hp) Hl) as Hidcg.
    apply list_elem_of_lookup in Hi as (j & Hj).
    assert (0 < discounted (gains gt_pos top))%R as Hd.
    { apply (discounted_pos _ j (pow_gain (key gt_pos i))).
      - unfold gains. by rewrite !list_lookup_fmap, Hj.
      - apply gain_pos. by apply positive_key. }
    rewrite div_Fin_nonzero by lra. eexists. split; [done|].
    by apply Rdiv_lt_0_compat.
Qed.

Lemma NDCG_zero_and_nan_witness :
  NDCG.compute (NDCG.init 1) [0; 1] [0; 1] = Ok (Fin 0) ∧
  ∃ v, NDCG.compute (NDCG.init 2) [0; 1] [0; 1] = Ok (Fin v) ∧ (0 < v)%R.
Proof.
  assert (fits_int64 [0; 1]) as Hfit
    by (apply (bool_decide_unpack _); vm_compute; exact I).
  split.
  - pose proof (NDCG_zero_and_nan (NDCG.init 1) [0; 1] [0; 1]) as H.
    destruct H as (_ & H & _).
    + apply (bool_decide_unpack _). vm_compute. exact I.
    + apply H; [exact Hfit | exists 1, 1; split; [reflexivity | lia]|].
      intros i Hi (r & Hr & Hpos).
      change (i ∈ [0]) in Hi. apply list_elem_of_singleton in Hi as ->.
      simpl in Hr. injection Hr as <-. lia.
  - pose proof (NDCG_zero_and_nan (NDCG.init 2) [0; 1] [0; 1]) as H.
    destruct H as (_ & _ & H).
    + apply (bool_decide_unpack _). vm_compute. exact I.
    + apply H; [exact Hfit|]. exists 1. split.
      * change (1 ∈ [0; 1]). apply elem_of_cons. right. apply list_elem_of_here.
      * exists 1. split; [reflexivity | lia].
Defined.

(** ** MRR and NCRR: dependence on the rank, bounds, degenerate inputs *)

Lemma nonzero_from_app (s : nat) (m1 m2 : list bool) :
  nonzero_from s (m1 ++ m2)
  = nonzero_from s m1 ++ nonzero_from (s + length m1) m2.
Proof.
  revert s. induction m1 as [|b m1 IH]; intros s; simpl.
  - by rewrite Nat.add_0_r.
  - rewrite IH. replace (S s + length m1) with (s + S (length m1)) by lia.
    by destruct b.
Qed.

Lemma nonzero_from_shift (s : nat) (m : list bool) :
  nonzero_from s m = (fun i => s + i) <$> nonzero_from 0 m.
Proof.
  revert s. induction m as [|b m IH]; intros s; simpl; [done|].
  assert (nonzero_from (S s) m = (fun i => s + i) <$> nonzero_from 1 m) as Hs.
  { rewrite (IH (S s)), (IH 1), <- list_fmap_compose.
    apply list_fmap_ext. intros; simpl; lia. }
  destruct b; simpl; rewrite Hs; [|done]. f_equal. lia.
Qed.

Lemma hits_app (items front behind : list nat) :
  nonzero (in1d (front ++ behind) items)
  = nonzero (in1d front items)
    ++ ((fun i => length front + i) <$> nonzero (in1d behind items)).
Proof.
  unfold nonzero, in1d. rewrite fmap_app, nonzero_from_app, length_fmap.
  f_equal. apply nonzero_from_shift.
Qed.

Lemma MRR_compute_Ok_inv self (gt_pos pd_rank : list nat) (v : R) :
  MRR.compute self gt_pos pd_rank = Ok v →
  ∃ first rest,
    nonzero (in1d pd_rank (nonzero (gt0 gt_pos))) = first :: rest ∧
    v = (1 / INR (first + 1))%R.
Proof.
  unfold MRR.compute.
  destruct (nonzero (in1d pd_rank _)) as [|first rest]; [done|].
  intros [= <-]. eauto.
Qed.

(** X10. [MRR.compute] reads the rank only up to its first positive
    item: what follows a front part that holds a positive item does not
    change the result.  A front part without positive items only shifts
    the first hit by its length: when the first positive item of [behind]
    is at position [p], the result for [behind] is [1 / (p + 1)] and the
    result for [front ++ behind] is [1 / (length front + p + 1)]. *)
Theorem MRR_reads_up_to_first_hit (self : RankingMetric)
    (gt_pos front behind : list nat) :
  ((∃ i, i ∈ front ∧ positive gt_pos i) →
     MRR.compute self gt_pos (front ++ behind)
     = MRR.compute self gt_pos front) ∧
  ((∀ i, i ∈ front → ¬ positive gt_pos i) →
     (MRR.compute self gt_pos (front ++ behind) = Raise ValueError ↔
      MRR.compute self gt_pos behind = Raise ValueError) ∧
     ∀ p, first_hit gt_pos behind p →
       MRR.compute self gt_pos behind = Ok (1 / INR (p + 1))%R ∧
       MRR.compute self gt_pos (front ++ behind)
       = Ok (1 / INR (length front + p + 1))%R).
Proof.
  split.
  - intros (i & Hi & Hpos). unfold MRR.compute. rewrite hits_app.
    destruct (nonzero (in1d front _)) as [|p rest] eqn:E; [|done].
    destruct (proj1 (MRR_no_match _ _) E i); done.
  - intros Hno. apply (proj2 (MRR_no_match _ _)) in Hno.
    unfold MRR.compute. rewrite hits_app, Hno. simpl.
    destruct (nonzero (in1d behind _)) as [|q rest] eqn:E; simpl.
    + split; [done|]. intros p [(i & Hi & Hpos) _].
      destruct (proj1 (MRR_no_match _ _) E i);
        [by eapply list_elem_of_lookup_2 | done].
    + split; [done|]. intros p Hp.
      pose proof (first_hit_unique _ _ _ _ (MRR_matched_head _ _ _ _ E) Hp)
        as ->.
      done.
Qed.

Lemma MRR_reads_up_to_first_hit_witness :
  MRR.compute MRR.init [0; 1; 1] ([0; 2] ++ [1])
  = MRR.compute MRR.init [0; 1; 1] [0; 2].
Proof.
  apply (MRR_reads_up_to_first_hit MRR.init [0; 1; 1] [0; 2] [1]).
  exists 2. split.
  - apply elem_of_cons. right. apply list_elem_of_here.
  - exists 1. split; [reflexivity | lia].
Defined.

(** X11. A result of [MRR.compute] lies between the reciprocal of the
    length of the rank and 1, and it is 1 exactly when the first item of
    the rank is positive. *)
Theorem MRR_bounds (self : RankingMetric) (gt_pos pd_rank : list nat) (v : R) :
  MRR.compute self gt_pos pd_rank = Ok v →
  (1 / INR (length pd_rank) <= v <= 1)%R ∧
  (v = 1%R ↔ ∃ i, pd_rank !! 0 = Some i ∧ positive gt_pos i).
Proof.
  intros (first & rest & Hhits & ->)%MRR_compute_Ok_inv.
  pose proof (MRR_matched_head _ _ _ _ Hhits) as Hfirst.
  destruct Hfirst as [(i & Hi & Hpos) Hmin].
  pose proof (lookup_lt_Some _ _ _ Hi) as Hlt.
  assert (0 < INR (first + 1))%R as Hf by (apply lt_0_INR; lia).
  assert (INR (first + 1) <= INR (length pd_rank))%R as Hle
    by (apply le_INR; lia).
  split; [split|].
  - unfold Rdiv. rewrite !Rmult_1_l. apply Rinv_le_contravar; lra.
  - replace 1%R with (INR 1) at 1 by done. apply ratio_le_1; lia.
  - split.
    + intros Hv. unfold Rdiv in Hv. rewrite Rmult_1_l in Hv.
      apply (f_equal Rinv) in Hv. rewrite Rinv_inv, Rinv_1 in Hv.
      replace 1%R with (INR 1) in Hv by done. apply INR_eq in Hv.
      assert (first = 0) as -> by lia. eauto.
    + intros (j & Hj & Hjpos).
      destruct (decide (first = 0)) as [->|Hne].
      * simpl. unfold Rdiv. rewrite Rmult_1_l. apply Rinv_1.
      * destruct (Hmin 0 j); [lia | done | done].
Qed.

Lemma MRR_bounds_witness :
  (1 / INR (length [0; 2; 1]) <= 1 / INR (1 + 1) <= 1)%R ∧
  ((1 / INR (1 + 1))%R = 1%R ↔
   ∃ i, [0; 2; 1] !! 0 = Some i ∧ positive [0; 1; 1] i).
Proof.
  apply (MRR_bounds MRR.init [0; 1; 1] [0; 2; 1]). reflexivity.
Defined.

Lemma no_positive_items (gt_pos : list nat) :
  (∀ i, ¬ positive gt_pos i) → nonzero (gt0 gt_pos) = [].
Proof.
  intros Hno. destruct (nonzero (gt0 gt_pos)) as [|x l] eqn:E; [done|].
  destruct (Hno x). apply elem_of_gt_pos_items. rewrite E. apply list_elem_of_here.
Qed.

Lemma icrr_pos (gt_pos : list nat) :
  (∃ i, positive gt_pos i) →
  (0 < NCRR.sum_reciprocal
         ((fun i => (i + 1)%nat) <$> arange (length (nonzero (gt0 gt_pos)))))%R.
Proof.
  intros Hpos%gt_pos_items_nonempty. apply sum_reciprocal_pos.
  destruct (nonzero (gt0 gt_pos)); done.
Qed.

(** X12. Degenerate inputs of NCRR.  Without a positive item the score
    is a not-a-number.  With a positive item it is 0 exactly when the
    rank holds no positive item, and positive otherwise; items outside the
    relevance vector are never an error. *)
Theorem NCRR_zero_and_nan (self : RankingMetric) (gt_pos pd_rank : list nat) :
  ((∀ i, ¬ positive gt_pos i) →
     NCRR.compute self gt_pos pd_rank = NaN) ∧
  ((∃ i, positive gt_pos i) → (∀ i, i ∈ pd_rank → ¬ positive gt_pos i) →
     NCRR.compute self gt_pos pd_rank = Fin 0) ∧
  ((∃ i, i ∈ pd_rank ∧ positive gt_pos i) →
     ∃ v, NCRR.compute self gt_pos pd_rank = Fin v ∧ (0 < v)%R).
Proof.
  split; [|split].
  - intros Hno. unfold NCRR.compute.
    assert (nonzero (in1d pd_rank (nonzero (gt0 gt_pos))) = []) as ->
      by (apply MRR_no_match; intros i _; apply Hno).
    rewrite (no_positive_items _ Hno). simpl.
    unfold NCRR.sum_reciprocal. simpl.
    destruct (Req_dec_T 0 0) as [_|Hne]; [done | lra].
  - intros Hpos Hno. pose proof (icrr_pos _ Hpos) as Hi.
    unfold NCRR.compute.
    apply (proj2 (MRR_no_match _ _)) in Hno. rewrite Hno.
    rewrite div_Fin_nonzero by lra. f_equal.
    unfold NCRR.sum_reciprocal at 1. simpl. unfold Rdiv. lra.
  - intros (i & Hi & Hpos).
    pose proof (icrr_pos _ (ex_intro _ i Hpos)) as Hicrr.
    unfold NCRR.compute.
    assert (0 < NCRR.sum_reciprocal
                  ((fun i => (i + 1)%nat)
                     <$> nonzero (in1d pd_rank (nonzero (gt0 gt_pos)))))%R
      as Hcrr.
    { apply sum_reciprocal_pos. intros Hnil.
      destruct (proj1 (MRR_no_match _ _) Hnil i); done. }
    rewrite div_Fin_nonzero by lra. eexists. split; [done|].
    by apply Rdiv_lt_0_compat.
Qed.

Lemma NCRR_zero_and_nan_witness :
  NCRR.compute (NCRR.init (-1)) [0; 0] [1; 0; 7] = NaN ∧
  NCRR.compute (NCRR.init (-1)) [0; 1] [0; 7] = Fin 0.
Proof.
  split.
  - apply (NCRR_zero_and_nan (NCRR.init (-1)) [0; 0] [1; 0; 7]).
    intros i (r & Hr & Hpos).
    destruct i as [|[|i]]; simpl in Hr; [injection Hr as <-; lia ..|done].
  - apply (NCRR_zero_and_nan (NCRR.init (-1)) [0; 1] [0; 7]).
    + exists 1, 1. split; [reflexivity | lia].
    + intros i Hi (r & Hr & Hpos).
      rewrite !elem_of_cons, elem_of_nil in Hi.
      destruct Hi as [-> | [-> | []]]; simpl in Hr; [injection Hr as <-; lia | done].
Defined.

(** X13. With exactly one positive item and a rank without repeated
    items NCRR is MRR: whenever [MRR.compute] returns a value,
    [NCRR.compute] returns the same one. *)
Theorem NCRR_and_MRR (self1 self2 : RankingMetric)
    (gt_pos pd_rank : list nat) (v : R) :
  MRR.compute self1 gt_pos pd_rank = Ok v →
  num_positives gt_pos = 1 → NoDup pd_rank →
  NCRR.compute self2 gt_pos pd_rank = Fin v.
Proof.
  intros (first & rest & Hhits & ->)%MRR_compute_Ok_inv Hone Hnd.
  pose proof (NCRR_hits_bound gt_pos pd_rank Hnd) as Hb.
  rewrite Hhits in Hb. fold (num_positives gt_pos) in Hb.
  rewrite Hone in Hb. destruct rest as [|? ?]; [|simpl in Hb; lia].
  unfold NCRR.compute. rewrite Hhits.
  fold (num_positives gt_pos). rewrite Hone.
  assert (NCRR.sum_reciprocal ((fun i => (i + 1)%nat) <$> arange 1) = 1%R)
    as ->.
  { unfold NCRR.sum_reciprocal, arange.
    cbn [seq fmap list_fmap sum_R foldr Nat.add INR]. field. }
  assert (NCRR.sum_reciprocal ((fun i => (i + 1)%nat) <$> [first])
          = (1 / INR (first + 1))%R) as ->.
  { unfold NCRR.sum_reciprocal. cbn [fmap list_fmap sum_R foldr].
    apply Rplus_0_r. }
  rewrite div_Fin_nonzero by lra. f_equal. field. apply not_0_INR. lia.
Qed.

Lemma NCRR_and_MRR_witness :
  NCRR.compute (NCRR.init 1) [0; 0; 1] [0; 2; 1] = Fin (1 / INR (1 + 1)).
Proof.
  apply (NCRR_and_MRR MRR.init (NCRR.init 1) [0; 0; 1] [0; 2; 1]).
  - reflexivity.
  - reflexivity.
  - apply (bool_decide_unpack _). vm_compute. exact I.
Defined.

(** ** AUC: errors, degenerate inputs, extreme values and order *)

Lemma marked_nil (mask : list nat) :
  (∀ i, ¬ positive mask i) → marked mask = [].
Proof.
  intros Hno. destruct (marked mask) as [|x l] eqn:E; [done|].
  destruct (Hno x). apply elem_of_marked. rewrite E. apply list_elem_of_here.
Qed.

Lemma marked_nonempty (mask : list nat) :
  (∃ i, positive mask i) → marked mask ≠ [].
Proof.
  intros (i & Hi%elem_of_marked) Hnil. rewrite Hnil in Hi. inversion Hi.
Qed.

Lemma foldl_add_NaN (l : list npfloat) : foldl NpFloat.add NaN l = NaN.
Proof. induction l as [|x l IH]; [done | exact IH]. Qed.

Lemma NpFloat_sum_all_NaN {A} (f : A → npfloat) (l : list A) :
  l ≠ [] → (∀ x, x ∈ l → f x = NaN) → NpFloat.sum (f <$> l) = NaN.
Proof.
  destruct l as [|x l]; [done|]. intros _ Hall.
  unfold NpFloat.sum. rewrite fmap_cons. cbn [foldl].
  rewrite (Hall x) by apply list_elem_of_here. apply foldl_add_NaN.
Qed.

(** X14. [AUC.compute] fails exactly when one of the two masks is not as
    long as the score array, and then with [IndexError].  With masks of
    the right length and no positive item, or no negative item, it
    returns a not-a-number. *)
Theorem AUC_errors_and_nan (self : RankingMetric) (pd_scores : list R)
    (gt_pos gt_neg : list nat) :
  (∀ e, AUC.compute self pd_scores gt_pos gt_neg = Raise e ↔
        e = IndexError ∧
        (length gt_pos ≠ length pd_scores ∨
         length gt_neg ≠ length pd_scores)) ∧
  (length gt_pos = length pd_scores → length gt_neg = length pd_scores →
   (∀ i, ¬ positive gt_pos i) ∨ (∀ j, ¬ positive gt_neg j) →
   AUC.compute self pd_scores gt_pos gt_neg = Ok NaN).
Proof.
  split.
  - intros e. unfold AUC.compute, mask_select.
    assert (length (astype_bool gt_pos) = length gt_pos) as ->
      by apply length_fmap.
    assert (length (astype_bool gt_neg) = length gt_neg) as ->
      by apply length_fmap.
    destruct (decide (length gt_pos = length pd_scores)) as [Hp|Hp].
    + rewrite (bool_decide_eq_true_2 _ Hp).
      destruct (decide (length gt_neg = length pd_scores)) as [Hn|Hn].
      * rewrite (bool_decide_eq_true_2 _ Hn). unfold mbind, pyresult_bind.
        split; [done | intros [_ [?|?]]; done].
      * rewrite (bool_decide_eq_false_2 _ Hn). unfold mbind, pyresult_bind.
        split; [intros [= <-]; tauto | by intros [-> _]].
    + rewrite (bool_decide_eq_false_2 _ Hp). unfold mbind, pyresult_bind.
      split; [intros [= <-]; tauto | by intros [-> _]].
  - intros Hp Hn Hor. unfold AUC.compute, mask_select.
    rewrite !bool_decide_eq_true_2
      by (unfold astype_bool; by rewrite length_fmap).
    unfold mbind, pyresult_bind. rewrite !compress_marked by done.
    destruct (marked gt_pos) as [|i P] eqn:E.
    + f_equal. exact div_of_nat_zero_zero.
    + destruct Hor as [Hno|Hno].
      * by rewrite (marked_nil _ Hno) in E.
      * rewrite (marked_nil _ Hno). rewrite NpFloat_sum_all_NaN; [done..|].
        intros x _. exact div_of_nat_zero_zero.
Qed.

Lemma AUC_errors_and_nan_witness :
  AUC.compute AUC.init [1%R; 2%R] [1; 1] [0; 0] = Ok NaN.
Proof.
  apply (AUC_errors_and_nan AUC.init [1%R; 2%R] [1; 1] [0; 0]).
  - reflexivity.
  - reflexivity.
  - right. intros j (r & Hr & Hpos).
    destruct j as [|[|j]]; simpl in Hr; [injection Hr as <-; lia ..|done].
Defined.

Lemma sum_R_fmap_all_one {A} (f : A → R) (l : list A) :
  (∀ x, x ∈ l → (0 <= f x <= 1)%R) →
  sum_R (f <$> l) = INR (length l) ↔ ∀ x, x ∈ l → f x = 1%R.
Proof.
  induction l as [|x l IH]; intros Hb.
  - split; [intros _ y Hy; inversion Hy | done].
  - rewrite fmap_cons. cbn [sum_R foldr length]. rewrite S_INR.
    fold (sum_R (f <$> l)).
    assert (∀ y, y ∈ l → (0 <= f y <= 1)%R) as Hb'
      by (intros y Hy; apply Hb; by apply elem_of_cons; right).
    pose proof (sum_R_fmap_bounds f l Hb') as Hs.
    pose proof (Hb x (list_elem_of_here _ _)) as Hx.
    specialize (IH Hb'). split.
    + intros Hsum y [-> | Hy]%elem_of_cons; [lra|].
      apply IH; [lra | done].
    + intros Hall. rewrite (Hall x) by apply list_elem_of_here.
      rewrite (proj2 IH); [lra|].
      intros y Hy. apply Hall. by apply elem_of_cons; right.
Qed.

Lemma sum_R_fmap_all_zero {A} (f : A → R) (l : list A) :
  (∀ x, x ∈ l → (0 <= f x <= 1)%R) →
  sum_R (f <$> l) = 0%R ↔ ∀ x, x ∈ l → f x = 0%R.
Proof.
  induction l as [|x l IH]; intros Hb.
  - split; [intros _ y Hy; inversion Hy | done].
  - rewrite fmap_cons. cbn [sum_R foldr]. fold (sum_R (f <$> l)).
    assert (∀ y, y ∈ l → (0 <= f y <= 1)%R) as Hb'
      by (intros y Hy; apply Hb; by apply elem_of_cons; right).
    pose proof (sum_R_fmap_bounds f l Hb') as Hs.
    pose proof (Hb x (list_elem_of_here _ _)) as Hx.
    specialize (IH Hb'). split.
    + intros Hsum y [-> | Hy]%elem_of_cons; [lra|].
      apply IH; [lra | done].
    + intros Hall. rewrite (Hall x) by apply list_elem_of_here.
      rewrite (proj2 IH); [lra|].
      intros y Hy. apply Hall. by apply elem_of_cons; right.
Qed.

Lemma length_filter_all {A} (P : A → Prop) `{!∀ x, Decision (P x)}
    (l : list A) :
  length (filter P l) = length l ↔ ∀ x, x ∈ l → P x.
Proof.
  split.
  - intros Hlen x Hx. destruct (decide (P x)) as [|Hn]; [done|].
    pose proof (length_filter_lt P l x Hx Hn). lia.
  - intros Hall. induction l as [|x l IH]; [done|].
    rewrite filter_cons, decide_True by apply Hall, list_elem_of_here.
    simpl. f_equal. apply IH. intros y Hy. apply Hall. by apply elem_of_cons; right.
Qed.

Lemma length_filter_none {A} (P : A → Prop) `{!∀ x, Decision (P x)}
    (l : list A) :
  length (filter P l) = 0 ↔ ∀ x, x ∈ l → ¬ P x.
Proof.
  split.
  - intros Hlen x Hx HP.
    assert (x ∈ filter P l) as Hin by (by apply list_elem_of_filter).
    destruct (filter P l); [inversion Hin | done].
  - intros Hno. by rewrite filter_none.
Qed.

Lemma Rdiv_eq_1_iff (a b : R) : (0 < b)%R → (a / b)%R = 1%R ↔ a = b.
Proof.
  intros Hb. split.
  - intros Hq. replace a with (a / b * b)%R by (field; lra). rewrite Hq. lra.
  - intros ->. field. lra.
Qed.

Lemma Rdiv_eq_0_iff (a b : R) : (0 < b)%R → (a / b)%R = 0%R ↔ a = 0%R.
Proof.
  intros Hb. split.
  - intros Hq. replace a with (a / b * b)%R by (field; lra). rewrite Hq. lra.
  - intros ->. field. lra.
Qed.

Lemma auc_fraction_one (pd_scores : list R) (gt_neg : list nat) (i : nat) :
  marked gt_neg ≠ [] →
  auc_fraction pd_scores gt_neg i = 1%R ↔
  ∀ j, j ∈ marked gt_neg → (score pd_scores j < score pd_scores i)%R.
Proof.
  intros Hne. unfold auc_fraction, beaten.
  rewrite <- length_filter_all.
  assert (0 < INR (length (marked gt_neg)))%R as HN
    by (apply lt_0_INR; destruct (marked gt_neg); [done | simpl; lia]).
  rewrite (Rdiv_eq_1_iff _ _ HN).
  split; intros Hq; [by apply INR_eq | by rewrite Hq].
Qed.

Lemma auc_fraction_zero (pd_scores : list R) (gt_neg : list nat) (i : nat) :
  marked gt_neg ≠ [] →
  auc_fraction pd_scores gt_neg i = 0%R ↔
  ∀ j, j ∈ marked gt_neg → (score pd_scores i <= score pd_scores j)%R.
Proof.
  intros Hne. unfold auc_fraction, beaten.
  assert (0 < INR (length (marked gt_neg)))%R as HN
    by (apply lt_0_INR; destruct (marked gt_neg); [done | simpl; lia]).
  rewrite (Rdiv_eq_0_iff _ _ HN). split.
  - intros Hq j Hj. replace 0%R with (INR 0) in Hq by done.
    apply INR_eq in Hq.
    apply Rnot_lt_le. by apply (proj1 (length_filter_none _ _) Hq).
  - intros Hall. rewrite (proj2 (length_filter_none _ _)); [done|].
    intros j Hj Hlt. specialize (Hall j Hj). lra.
Qed.

(** X15. Extreme values of the AUC, for masks of the right length with a
    positive and a negative item: the result is 1 exactly when every
    positive item scores strictly above every negative item, and 0
    exactly when no positive item scores strictly above a negative one. *)
Theorem AUC_extremes (self : RankingMetric) (pd_scores : list R)
    (gt_pos gt_neg : list nat) :
  length gt_pos = length pd_scores → length gt_neg = length pd_scores →
  (∃ i, positive gt_pos i) → (∃ j, positive gt_neg j) →
  (AUC.compute self pd_scores gt_pos gt_neg = Ok (Fin 1) ↔
     ∀ i j, positive gt_pos i → positive gt_neg j →
            (score pd_scores j < score pd_scores i)%R) ∧
  (AUC.compute self pd_scores gt_pos gt_neg = Ok (Fin 0) ↔
     ∀ i j, positive gt_pos i → positive gt_neg j →
            (score pd_scores i <= score pd_scores j)%R).
Proof.
  intros Hp Hn HP%marked_nonempty HN%marked_nonempty.
  rewrite AUC_compute_formula by done. unfold auc_formula.
  assert (0 < INR (length (marked gt_pos)))%R as Hlen
    by (apply lt_0_INR; destruct (marked gt_pos); [done | simpl; lia]).
  pose proof (fun i (_ : i ∈ marked gt_pos) =>
                auc_fraction_unit pd_scores gt_neg i HN) as Hb.
  split.
  - split.
    + intros [= Hq]. intros i j Hi%elem_of_marked Hj%elem_of_marked.
      revert i Hi j Hj.
      assert (sum_R (auc_fraction pd_scores gt_neg <$> marked gt_pos)
              = INR (length (marked gt_pos))) as Hs
        by exact (proj1 (Rdiv_eq_1_iff _ _ Hlen) Hq).
      intros i Hi. apply auc_fraction_one; [done|].
      by apply (proj1 (sum_R_fmap_all_one _ _ Hb) Hs).
    + intros Hall. do 2 f_equal.
      rewrite (proj2 (sum_R_fmap_all_one _ _ Hb)).
      * unfold Rdiv. apply Rinv_r. lra.
      * intros i Hi. apply auc_fraction_one; [done|].
        intros j Hj. apply Hall; by apply elem_of_marked.
  - split.
    + intros [= Hq]. intros i j Hi%elem_of_marked Hj%elem_of_marked.
      revert i Hi j Hj.
      assert (sum_R (auc_fraction pd_scores gt_neg <$> marked gt_pos) = 0%R)
        as Hs by exact (proj1 (Rdiv_eq_0_iff _ _ Hlen) Hq).
      intros i Hi. apply auc_fraction_zero; [done|].
      by apply (proj1 (sum_R_fmap_all_zero _ _ Hb) Hs).
    + intros Hall. do 2 f_equal.
      rewrite (proj2 (sum_R_fmap_all_zero _ _ Hb)).
      * unfold Rdiv. lra.
      * intros i Hi. apply auc_fraction_zero; [done|].
        intros j Hj. apply Hall; by apply elem_of_marked.
Qed.

Lemma AUC_extremes_witness :
  AUC.compute AUC.init [3%R; 1%R; 2%R] [1; 0; 0] [0; 1; 1] = Ok (Fin 1).
Proof.
  apply (AUC_extremes AUC.init [3%R; 1%R; 2%R] [1; 0; 0] [0; 1; 1]).
  - reflexivity.
  - reflexivity.
  - exists 0, 1. split; [reflexivity | lia].
  - exists 1, 1. split; [reflexivity | lia].
  - intros i j (r & Hr & Hpos) (r' & Hr' & Hpos').
    destruct i as [|[|[|i]]]; simpl in Hr; try done;
      try (injection Hr as <-; lia).
    destruct j as [|[|[|j]]]; simpl in Hr'; try done;
      try (injection Hr' as <-; lia); unfold score; simpl; lra.
Defined.

Lemma score_fmap (f : R → R) (pd_scores : list R) (i : nat) :
  i < length pd_scores → score (f <$> pd_scores) i = f (score pd_scores i).
Proof.
  intros Hi. unfold score. rewrite list_lookup_fmap.
  destruct (lookup_lt_is_Some_2 pd_scores i Hi) as [x ->]. done.
Qed.

Lemma AUC_compute_same_order (self : RankingMetric)
    (pd_scores pd_scores' : list R) (gt_pos gt_neg : list nat) :
  length pd_scores' = length pd_scores →
  (length gt_pos = length pd_scores → length gt_neg = length pd_scores →
   ∀ i j, positive gt_pos i → positive gt_neg j →
     (score pd_scores' j < score pd_scores' i)%R ↔
     (score pd_scores j < score pd_scores i)%R) →
  AUC.compute self pd_scores' gt_pos gt_neg
  = AUC.compute self pd_scores gt_pos gt_neg.
Proof.
  intros Hlen Hord. unfold AUC.compute, mask_select. rewrite Hlen.
  assert (length (astype_bool gt_pos) = length gt_pos) as ->
    by apply length_fmap.
  assert (length (astype_bool gt_neg) = length gt_neg) as ->
    by apply length_fmap.
  destruct (decide (length gt_pos = length pd_scores)) as [Hp|Hp];
    [rewrite !(bool_decide_eq_true_2 _ Hp)
    |by rewrite !(bool_decide_eq_false_2 _ Hp)].
  destruct (decide (length gt_neg = length pd_scores)) as [Hn|Hn];
    [rewrite !(bool_decide_eq_true_2 _ Hn)
    |by rewrite !(bool_decide_eq_false_2 _ Hn)].
  unfold mbind, pyresult_bind.
  rewrite !compress_marked by congruence.
  rewrite <- !list_fmap_compose, !length_fmap. do 3 f_equal.
  apply list_fmap_ext. intros n i Hi%list_elem_of_lookup_2. unfold compose.
  rewrite !count_below_scores. do 3 f_equal.
  apply filter_ext_in. intros j Hj.
  apply Hord; try done; by apply elem_of_marked.
Qed.

(** X16. [AUC.compute] depends on the scores only through the strict
    order between the score of a positive and the score of a negative
    item: two score arrays of the same length that agree on these
    comparisons give the same result, errors included.  In particular a
    strictly increasing transformation of the scores changes nothing. *)
Theorem AUC_order_only (self : RankingMetric) (pd_scores : list R)
    (gt_pos gt_neg : list nat) :
  (∀ pd_scores' : list R,
     length pd_scores' = length pd_scores →
     (∀ i j, positive gt_pos i → positive gt_neg j →
        (score pd_scores' j < score pd_scores' i)%R ↔
        (score pd_scores j < score pd_scores i)%R) →
     AUC.compute self pd_scores' gt_pos gt_neg
     = AUC.compute self pd_scores gt_pos gt_neg) ∧
  (∀ f : R → R,
     (∀ x y, (x < y)%R → (f x < f y)%R) →
     AUC.compute self (f <$> pd_scores) gt_pos gt_neg
     = AUC.compute self pd_scores gt_pos gt_neg).
Proof.
  split.
  - intros s' Hlen Hord. apply AUC_compute_same_order; [done|].
    intros _ _. exact Hord.
  - intros f Hf. apply AUC_compute_same_order; [apply length_fmap|].
    intros Hp Hn i j Hi%positive_lt Hj%positive_lt.
    rewrite !score_fmap by lia. split; [|apply Hf].
    intros Hlt. apply Rnot_le_lt. intros [Hle|Heq].
    + apply Hf in Hle. lra.
    + rewrite Heq in Hlt. lra.
Qed.

Lemma AUC_order_only_witness :
  AUC.compute AUC.init ((fun x => x + 1)%R <$> [3%R; 1%R]) [1; 0] [0; 1]
  = AUC.compute AUC.init [3%R; 1%R] [1; 0] [0; 1].
Proof.
  apply (AUC_order_only AUC.init [3%R; 1%R] [1; 0] [0; 1]).
  intros x y Hxy. lra.
Defined.

(** ** NDCG: exchanging two items of the rank *)







(** ** NCRR: extending the rank *)

Lemma sum_reciprocal_app (l1 l2 : list nat) :
  NCRR.sum_reciprocal (l1 ++ l2)
  = (NCRR.sum_reciprocal l1 + NCRR.sum_reciprocal l2)%R.
Proof. unfold NCRR.sum_reciprocal. by rewrite fmap_app, sum_R_app. Qed.

(** X19. Extending a rank never lowers the NCRR: with a positive item in
    the relevance vector, the score of [front ++ behind] is at least the
    score of [front], and the two are equal exactly when [behind] holds no
    positive item. *)
Theorem NCRR_grows_with_rank (self : RankingMetric)
    (gt_pos front behind : list nat) :
  (∃ i, positive gt_pos i) →
  ∃ v w, NCRR.compute self gt_pos front = Fin v ∧
         NCRR.compute self gt_pos (front ++ behind) = Fin w ∧
         (v <= w)%R ∧
         (v = w ↔ ∀ i, i ∈ behind → ¬ positive gt_pos i).
Proof.
  intros Hpos. pose proof (icrr_pos _ Hpos) as Hicrr.
  unfold NCRR.compute. rewrite hits_app, fmap_app, sum_reciprocal_app.
  rewrite !div_Fin_nonzero by lra. eexists _, _.
  split; [done|]. split; [done|].
  rewrite <- MRR_no_match.
  assert (0 < / NCRR.sum_reciprocal
                 ((fun i => (i + 1)%nat)
                    <$> arange (length (nonzero (gt0 gt_pos)))))%R as Hinv
    by by apply Rinv_0_lt_compat.
  destruct (nonzero (in1d behind (nonzero (gt0 gt_pos)))) as [|h hits].
  - replace (NCRR.sum_reciprocal
               ((fun i => (i + 1)%nat) <$> ((fun i => length front + i) <$> [])))
      with 0%R by done.
    rewrite Rplus_0_r. split; [lra | done].
  - pose proof (sum_reciprocal_pos
                  ((fun i => length front + i) <$> h :: hits)) as Hp.
    specialize (Hp ltac:(done)).
    assert (∀ crr extra c : R, (0 < extra)%R → (0 < c)%R →
              (crr * c < (crr + extra) * c)%R) as Hlt
      by (intros crr extra c H1 H2; apply Rmult_lt_compat_r; lra).
    pose proof (Hlt (NCRR.sum_reciprocal
                       ((fun i => (i + 1)%nat)
                          <$> nonzero (in1d front (nonzero (gt0 gt_pos)))))
                    _ _ Hp Hinv) as Hstrict.
    unfold Rdiv. split; [lra|]. split; [lra | done].
Qed.

Lemma NCRR_grows_with_rank_witness :
  ∃ v w, NCRR.compute (NCRR.init (-1)) [0; 1; 1] [0; 1] = Fin v ∧
         NCRR.compute (NCRR.init (-1)) [0; 1; 1] ([0; 1] ++ [2]) = Fin w ∧
         (v <= w)%R ∧
         (v = w ↔ ∀ i, i ∈ [2] → ¬ positive [0; 1; 1] i).
Proof.
  apply (NCRR_grows_with_rank (NCRR.init (-1)) [0; 1; 1] [0; 1] [2]).
  exists 1, 1. split; [reflexivity | lia].
Defined.
